(** * NodeModal: the path-addressed value editor of the graph view

    A shallow embedding of [src/features/modals/NodeModal/index.tsx]:
    the projector [normalizeNodeData], the path mutator [setValueAtPath]
    and the handlers [handleSave], [handleCancel], [handleClose] together
    with the reset effect of the component.

    Conventions of the embedding.
    - The file is an ECMAScript module, hence strict mode code: assigning a
      property on a primitive throws a [TypeError].
    - A document is a tree produced by [JSON.parse]; it has no sharing, so
      the in-place updates made through the cursor [cur] are rendered by
      rebuilding the enclosing containers, and every outcome carries the
      tree as the code leaves it.
    - Numbers are the integer-valued ones; no verified property computes
      with document numbers.
    - Property names that the host defines on a prototype chain, or as
      exotic own properties of arrays and strings, are recognised by the
      [Host] interface; when the program touches one the model stops with
      [Exotic] (for a property access) or [Beyond] (for a call) instead of
      guessing what the host does.
    - A handler reads the state of the render it was created in; no
      handler here reads a cell after writing it, so the writes are applied
      in the order of the calls of the setters. *)

From Stdlib Require Import List String Ascii Bool ZArith NArith Lia.
From Stdlib Require Import Permutation.
From Stdlib Require Import DecimalString DecimalPos DecimalN.
Import ListNotations.

Local Open Scope list_scope.
Local Open Scope string_scope.

(* ------------------------------------------------------------------ *)
(** ** Values *)

(** The defined JavaScript values this program handles.  [undefined] is
    not a value here: a read that yields it returns [None], and a hole of
    an array is a [None] slot.  [named] holds the non-index own properties
    of an array object. *)
#[warnings="-register-all"]
Inductive value : Type :=
| VNull
| VBool (b : bool)
| VNum (n : Z)
| VStr (s : string)
| VArr (elems : list (option value)) (named : list (string * value))
| VObj (props : list (string * value)).

(** A path segment: [typeof seg === "number"] or a string key. *)
Inductive segment : Type :=
| Key (s : string)
| Index (n : N).

Inductive kind : Type := KObject | KArray | KString | KNumber | KBoolean.

Definition kind_of (v : value) : option kind :=
  match v with
  | VNull => None
  | VBool _ => Some KBoolean
  | VNum _ => Some KNumber
  | VStr _ => Some KString
  | VArr _ _ => Some KArray
  | VObj _ => Some KObject
  end.

Definition is_scalar (v : value) : bool :=
  match v with
  | VArr _ _ | VObj _ => false
  | _ => true
  end.

(** [Array.isArray] *)
Definition isArray (v : value) : bool :=
  match v with
  | VArr _ _ => true
  | _ => false
  end.

(** An error object, as far as [err.message] is concerned. *)
Inductive error_name : Type := SyntaxError | TypeError | PlainError.

Record exn : Type := mkExn { name : error_name; message : string }.

(** What the host provides: the set of property names it defines by itself
    for each kind of value, the JSON parser, and the text of the
    [TypeError] raised by a property access. *)
Class Host : Type := {
  host_defines : kind -> string -> bool;
  JSON_parse : string -> value + string;
  type_error_message : value -> string -> string
}.

(* ------------------------------------------------------------------ *)
(** ** Own properties, in the order of [OrdinaryOwnPropertyKeys] *)

Definition quote : string := String "034"%char EmptyString.
Definition newline : string := String "010"%char EmptyString.

Definition string_of_N (n : N) : string :=
  NilZero.string_of_uint (N.to_uint n).

Definition max_array_index : N := 4294967295.

(** The array index a property name denotes, if it is the canonical
    decimal form of an integer below [2^32 - 1]. *)
Definition array_index_of (k : string) : option N :=
  match NilEmpty.uint_of_string k with
  | Some u =>
      let n := N.of_uint u in
      if String.eqb (string_of_N n) k && (n <? max_array_index)%N
      then Some n else None
  | None => None
  end.

Fixpoint lookup (k : string) (ps : list (string * value)) : option value :=
  match ps with
  | [] => None
  | (k', v) :: ps' => if String.eqb k k' then Some v else lookup k ps'
  end.

(** Overwrite the value of an existing own property, keeping its place. *)
Fixpoint replace (k : string) (v : value) (ps : list (string * value))
  : list (string * value) :=
  match ps with
  | [] => []
  | (k', v') :: ps' =>
      if String.eqb k k' then (k', v) :: ps' else (k', v') :: replace k v ps'
  end.

(** Create an own property named by the array index [n]: index keys come
    first, in ascending order. *)
Fixpoint insert_index (n : N) (k : string) (v : value)
  (ps : list (string * value)) : list (string * value) :=
  match ps with
  | [] => [(k, v)]
  | (k', v') :: ps' =>
      match array_index_of k' with
      | Some m =>
          if (m <? n)%N then (k', v') :: insert_index n k v ps'
          else (k, v) :: ps
      | None => (k, v) :: ps
      end
  end.

(** [o[k] = v] on the own properties of an ordinary object. *)
Definition assign (k : string) (v : value) (ps : list (string * value))
  : list (string * value) :=
  match lookup k ps with
  | Some _ => replace k v ps
  | None =>
      match array_index_of k with
      | Some n => insert_index n k v ps
      | None => (ps ++ [(k, v)])%list
      end
  end.

(** [a[n] = v] on the elements of an array: overwrite, append, or extend
    with holes up to [n]. *)
Fixpoint write_index (es : list (option value)) (n : nat) (v : value)
  : list (option value) :=
  match n, es with
  | O, [] => [Some v]
  | O, _ :: es' => Some v :: es'
  | S n', [] => None :: write_index [] n' v
  | S n', e :: es' => e :: write_index es' n' v
  end.

(** [a[n]] for an array index [n]; [None] is [undefined]. *)
Definition read_index (es : list (option value)) (n : nat) : option value :=
  match nth_error es n with
  | Some (Some v) => Some v
  | _ => None
  end.

(* ------------------------------------------------------------------ *)
(** ** Completions *)

(** The result of a property operation. *)
Inductive completion (A : Type) : Type :=
| Normal (a : A)
| Throw (e : exn)
| Exotic.

Arguments Normal {A} a.
Arguments Throw {A} e.
Arguments Exotic {A}.

Section Properties.
Context {host : Host}.

Definition exotic_key (v : value) (k : string) : bool :=
  match kind_of v with
  | Some kd => host_defines kd k
  | None => false
  end.

Definition type_error (v : value) (k : string) : exn :=
  mkExn TypeError (type_error_message v k).

(** [cur[k]] with a string [k]; [Normal None] is [undefined]. *)
Definition get_prop (cur : value) (k : string) : completion (option value) :=
  match cur with
  | VNull => Throw (type_error cur k)
  | VObj ps =>
      match lookup k ps with
      | Some v => Normal (Some v)
      | None => if host_defines KObject k then Exotic else Normal None
      end
  | VArr _ xs =>
      if host_defines KArray k then Exotic else Normal (lookup k xs)
  | VBool _ | VNum _ | VStr _ =>
      if exotic_key cur k then Exotic else Normal None
  end.

(** [cur[k] = v] with a string [k], in strict mode; the result is the
    object as the assignment leaves it. *)
Definition put_prop (cur : value) (k : string) (v : value)
  : completion value :=
  match cur with
  | VNull => Throw (type_error cur k)
  | VObj ps =>
      match lookup k ps with
      | Some _ => Normal (VObj (replace k v ps))
      | None =>
          if host_defines KObject k then Exotic
          else Normal (VObj (assign k v ps))
      end
  | VArr es xs =>
      if host_defines KArray k then Exotic
      else Normal (VArr es (assign k v xs))
  | VBool _ | VNum _ | VStr _ =>
      if exotic_key cur k then Exotic else Throw (type_error cur k)
  end.

End Properties.

(* ------------------------------------------------------------------ *)
(** ** The path mutator *)

(** What a call leaves behind: the returned value or the thrown error,
    each with the state [s] as the call leaves it; [Beyond] when the run
    depends on a host-defined property. *)
Inductive outcome (A S : Type) : Type :=
| Done (a : A) (s : S)
| Raised (e : exn) (s : S)
| Beyond.

Arguments Done {A S} a s.
Arguments Raised {A S} e s.
Arguments Beyond {A S}.

(** The same outcome, seen from an enclosing state. *)
Definition remap {A S T : Type} (f : S -> T) (o : outcome A S) : outcome A T :=
  match o with
  | Done a s => Done a (f s)
  | Raised e s => Raised e (f s)
  | Beyond => Beyond
  end.

(** [setValueAtPath] returns [value], [true] or [false]. *)
Inductive ret : Type :=
| RetValue (v : value)
| RetBool (b : bool).

Section Mutator.
Context {host : Host}.

(** [cur[n]] with a number [n]: an element of an array when [n] is an
    array index, the property named by the decimal form of [n] otherwise. *)
Definition get_index (cur : value) (n : N) : completion (option value) :=
  match cur with
  | VArr es _ =>
      if (n <? max_array_index)%N
      then Normal (read_index es (N.to_nat n))
      else get_prop cur (string_of_N n)
  | _ => get_prop cur (string_of_N n)
  end.

(** [cur[n] = v] with a number [n]. *)
Definition put_index (cur : value) (n : N) (v : value) : completion value :=
  match cur with
  | VArr es xs =>
      if (n <? max_array_index)%N
      then Normal (VArr (write_index es (N.to_nat n) v) xs)
      else put_prop cur (string_of_N n) v
  | _ => put_prop cur (string_of_N n) v
  end.

(** [if (cur[seg] === undefined) cur[seg] = {};] *)
Definition vivify (cur : value) (k : string) : completion value :=
  match get_prop cur k with
  | Normal None => put_prop cur k (VObj [])
  | Normal (Some _) => Normal cur
  | Throw e => Throw e
  | Exotic => Exotic
  end.

(** The container [cur] once the child it holds under [seg] has become
    [child]: the child is updated in place, [cur] keeps referring to it. *)
Definition with_child (cur : value) (seg : segment) (child : value) : value :=
  match seg, cur with
  | Key k, VObj ps => VObj (replace k child ps)
  | Key k, VArr es xs => VArr es (replace k child xs)
  | Index n, VArr es xs =>
      if (n <? max_array_index)%N
      then VArr (write_index es (N.to_nat n) child) xs
      else VArr es (replace (string_of_N n) child xs)
  | _, _ => cur
  end.

Definition within (cur : value) (seg : segment) (o : outcome ret value)
  : outcome ret value :=
  remap (with_child cur seg) o.

(** The loop over [path[0 .. length-2]] followed by the assignment at
    [path[length-1]], from the cursor [cur] on; [seg :: rest] is the part
    of the path still to walk. *)
Fixpoint walk (cur : value) (seg : segment) (rest : list segment)
  (v : value) {struct rest} : outcome ret value :=
  match rest with
  | [] =>
      match seg with
      | Index n =>
          if negb (isArray cur) then Done (RetBool false) cur
          else match put_index cur n v with
               | Normal cur' => Done (RetBool true) cur'
               | Throw e => Raised e cur
               | Exotic => Beyond
               end
      | Key k =>
          match put_prop cur k v with
          | Normal cur' => Done (RetBool true) cur'
          | Throw e => Raised e cur
          | Exotic => Beyond
          end
      end
  | next :: rest' =>
      match seg with
      | Index n =>
          if negb (isArray cur) then Done (RetBool false) cur
          else match get_index cur n with
               | Normal (Some child) => within cur seg (walk child next rest' v)
               | Normal None => Done (RetBool false) cur
               | Throw e => Raised e cur
               | Exotic => Beyond
               end
      | Key k =>
          match vivify cur k with
          | Normal cur1 =>
              match get_prop cur1 k with
              | Normal (Some child) =>
                  within cur1 seg (walk child next rest' v)
              | Normal None => Done (RetBool false) cur1
              | Throw e => Raised e cur1
              | Exotic => Beyond
              end
          | Throw e => Raised e cur
          | Exotic => Beyond
          end
      end
  end.

(** The part [path] of a path still to walk, from the cursor [cur] on. *)
Definition walk_from (cur : value) (path : list segment) (v : value)
  : outcome ret value :=
  match path with
  | [] => Done (RetValue v) cur
  | seg :: rest => walk cur seg rest v
  end.

Definition setValueAtPath (obj : value) (path : option (list segment))
  (v : value) : outcome ret value :=
  match path with
  | None | Some [] => Done (RetValue v) obj
  | Some (seg :: rest) => walk obj seg rest v
  end.

End Mutator.

(* ------------------------------------------------------------------ *)
(** ** [JSON.stringify(v, null, 2)] *)

Definition backslash : string := String "092"%char EmptyString.

Definition hex_digit (n : nat) : string :=
  String (nth n (list_ascii_of_string "0123456789abcdef") "0"%char) EmptyString.

(** [QuoteJSONString], one code unit at a time. *)
Definition escape (c : ascii) : string :=
  let n := nat_of_ascii c in
  if Nat.eqb n 34 then backslash ++ quote
  else if Nat.eqb n 92 then backslash ++ backslash
  else if Nat.eqb n 8 then backslash ++ "b"
  else if Nat.eqb n 12 then backslash ++ "f"
  else if Nat.eqb n 10 then backslash ++ "n"
  else if Nat.eqb n 13 then backslash ++ "r"
  else if Nat.eqb n 9 then backslash ++ "t"
  else if Nat.ltb n 32
       then backslash ++ "u00" ++ hex_digit (n / 16) ++ hex_digit (n mod 16)
  else String c EmptyString.

Fixpoint escape_all (s : string) : string :=
  match s with
  | EmptyString => EmptyString
  | String c s' => escape c ++ escape_all s'
  end.

Definition quoteJSON (s : string) : string := quote ++ escape_all s ++ quote.

Definition string_of_Z (z : Z) : string := NilZero.string_of_int (Z.to_int z).

Fixpoint spaces (n : nat) : string :=
  match n with
  | O => EmptyString
  | S n' => String " "%char (spaces n')
  end.

Fixpoint join (sep : string) (l : list string) : string :=
  match l with
  | [] => EmptyString
  | [s] => s
  | s :: l' => s ++ sep ++ join sep l'
  end.

(** A container: the opening bracket, its [items] one per line at the
    deeper indentation, the closing bracket at the current one. *)
Definition block (opening closing : string) (ind : nat) (items : list string)
  : string :=
  match items with
  | [] => opening ++ closing
  | _ =>
      let pad := spaces (ind + 2) in
      opening ++ newline
      ++ join ("," ++ newline) (map (fun s => pad ++ s) items)
      ++ newline ++ spaces ind ++ closing
  end.

(** Serialization at indentation [ind].  A hole of an array is written
    [null]; the named properties of an array are not serialized. *)
Fixpoint stringify_at (ind : nat) (v : value) : string :=
  match v with
  | VNull => "null"
  | VBool true => "true"
  | VBool false => "false"
  | VNum n => string_of_Z n
  | VStr s => quoteJSON s
  | VArr es _ =>
      block "[" "]" ind
        (map (fun e => match e with
                       | Some x => stringify_at (ind + 2) x
                       | None => "null"
                       end) es)
  | VObj ps =>
      block "{" "}" ind
        (map (fun p => quoteJSON (fst p) ++ ": " ++ stringify_at (ind + 2) (snd p))
           ps)
  end.

Definition JSON_stringify (v : value) : string := stringify_at 0 v.

(* ------------------------------------------------------------------ *)
(** ** The projector *)

Inductive scalar : Type :=
| SNull
| SBool (b : bool)
| SNum (n : Z)
| SStr (s : string).

Definition of_scalar (x : scalar) : value :=
  match x with
  | SNull => VNull
  | SBool b => VBool b
  | SNum n => VNum n
  | SStr s => VStr s
  end.

(** The template literal [`${x}`]. *)
Definition to_string (x : scalar) : string :=
  match x with
  | SNull => "null"
  | SBool true => "true"
  | SBool false => "false"
  | SNum n => string_of_Z n
  | SStr s => s
  end.

Inductive row_type : Type :=
| TString | TNumber | TBoolean | TNull | TArray | TObject.

Definition is_container (t : row_type) : bool :=
  match t with
  | TArray | TObject => true
  | _ => false
  end.

(** A row of [NodeData["text"]]. *)
Module NodeRow.
Record t : Type := mk { key : option string; value : scalar; type : row_type }.
End NodeRow.

(** The key of a row when it is truthy: present and not the empty string. *)
Definition truthy_key (r : NodeRow.t) : option string :=
  match NodeRow.key r with
  | Some EmptyString | None => None
  | Some k => Some k
  end.

Section Projector.
Context {host : Host}.

(** One turn of [nodeRows.forEach]. *)
Definition add_row (obj : completion value) (row : NodeRow.t)
  : completion value :=
  match obj with
  | Normal o =>
      if negb (is_container (NodeRow.type row)) then
        match truthy_key row with
        | Some k => put_prop o k (of_scalar (NodeRow.value row))
        | None => Normal o
        end
      else Normal o
  | _ => obj
  end.

Definition normalizeNodeData (nodeRows : list NodeRow.t) : completion string :=
  match nodeRows with
  | [] => Normal "{}"
  | row0 :: others =>
      match others, truthy_key row0 with
      | [], None => Normal (to_string (NodeRow.value row0))
      | _, _ =>
          match fold_left add_row nodeRows (Normal (VObj [])) with
          | Normal obj => Normal (JSON_stringify obj)
          | Throw e => Throw e
          | Exotic => Exotic
          end
      end
  end.

End Projector.

(* ------------------------------------------------------------------ *)
(** ** A reference host

    An executable host for the closed examples: the property names of
    ECMAScript 2023, and a parser for JSON texts whose numbers are
    integer literals and whose strings use the one-letter escapes. *)

Module Reference.

Definition object_names : list string :=
  [ "constructor"; "__proto__"; "__defineGetter__"; "__defineSetter__";
    "__lookupGetter__"; "__lookupSetter__"; "hasOwnProperty";
    "isPrototypeOf"; "propertyIsEnumerable"; "toLocaleString"; "toString";
    "valueOf" ].

Definition array_names : list string :=
  [ "length"; "at"; "concat"; "copyWithin"; "entries"; "every"; "fill";
    "filter"; "find"; "findIndex"; "findLast"; "findLastIndex"; "flat";
    "flatMap"; "forEach"; "includes"; "indexOf"; "join"; "keys";
    "lastIndexOf"; "map"; "pop"; "push"; "reduce"; "reduceRight"; "reverse";
    "shift"; "slice"; "some"; "sort"; "splice"; "toReversed"; "toSorted";
    "toSpliced"; "unshift"; "values"; "with" ].

Definition string_names : list string :=
  [ "length"; "anchor"; "at"; "big"; "blink"; "bold"; "charAt";
    "charCodeAt"; "codePointAt"; "concat"; "endsWith"; "fixed"; "fontcolor";
    "fontsize"; "includes"; "indexOf"; "isWellFormed"; "italics";
    "lastIndexOf"; "link"; "localeCompare"; "match"; "matchAll"; "normalize";
    "padEnd"; "padStart"; "repeat"; "replace"; "replaceAll"; "search";
    "slice"; "small"; "split"; "startsWith"; "strike"; "sub"; "substr";
    "substring"; "sup"; "toLocaleLowerCase"; "toLocaleUpperCase";
    "toLowerCase"; "toUpperCase"; "toWellFormed"; "trim"; "trimEnd";
    "trimLeft"; "trimRight"; "trimStart" ].

Definition number_names : list string :=
  [ "toExponential"; "toFixed"; "toPrecision" ].

Definition mem (k : string) (l : list string) : bool :=
  existsb (String.eqb k) l.

Definition is_index (k : string) : bool :=
  match array_index_of k with
  | Some _ => true
  | None => false
  end.

Definition defines (kd : kind) (k : string) : bool :=
  mem k object_names ||
  match kd with
  | KObject | KBoolean => false
  | KArray => mem k array_names || is_index k
  | KString => mem k string_names || is_index k
  | KNumber => mem k number_names
  end.

(** *** The parser *)

Definition code (c : ascii) : nat := nat_of_ascii c.

Definition is_ws (c : ascii) : bool :=
  let n := code c in
  Nat.eqb n 32 || Nat.eqb n 9 || Nat.eqb n 10 || Nat.eqb n 13.

Definition is_digit (c : ascii) : bool :=
  let n := code c in Nat.leb 48 n && Nat.leb n 57.

Fixpoint skip_ws (s : string) : string :=
  match s with
  | String c s' => if is_ws c then skip_ws s' else s
  | EmptyString => s
  end.

(** The rest of [s] after the prefix [p]. *)
Fixpoint strip (p s : string) : option string :=
  match p, s with
  | EmptyString, _ => Some s
  | String a p', String b s' => if Ascii.eqb a b then strip p' s' else None
  | String _ _, EmptyString => None
  end.

(** The character an escape letter stands for. *)
Definition unescape (c : ascii) : option ascii :=
  let n := code c in
  if Nat.eqb n 34 || Nat.eqb n 92 || Nat.eqb n 47 then Some c
  else if Nat.eqb n 98 then Some (ascii_of_nat 8)
  else if Nat.eqb n 102 then Some (ascii_of_nat 12)
  else if Nat.eqb n 110 then Some (ascii_of_nat 10)
  else if Nat.eqb n 114 then Some (ascii_of_nat 13)
  else if Nat.eqb n 116 then Some (ascii_of_nat 9)
  else None.

(** The characters of a string literal, after its opening quote. *)
Fixpoint p_chars (s : string) : option (string * string) :=
  match s with
  | EmptyString => None
  | String c s' =>
      if Nat.eqb (code c) 34 then Some (EmptyString, s')
      else if Nat.eqb (code c) 92 then
        match s' with
        | String e s'' =>
            match unescape e, p_chars s'' with
            | Some c', Some (body, rest) => Some (String c' body, rest)
            | _, _ => None
            end
        | EmptyString => None
        end
      else if Nat.ltb (code c) 32 then None
      else match p_chars s' with
           | Some (body, rest) => Some (String c body, rest)
           | None => None
           end
  end.

Fixpoint p_digits (s : string) (acc : N) : N * string :=
  match s with
  | String c s' =>
      if is_digit c
      then p_digits s' (acc * 10 + N.of_nat (code c - 48))%N
      else (acc, s)
  | EmptyString => (acc, s)
  end.

(** After a number no fraction and no exponent may follow. *)
Definition integral (rest : string) : bool :=
  match rest with
  | String c _ =>
      negb (Nat.eqb (code c) 46 || Nat.eqb (code c) 101 || Nat.eqb (code c) 69)
  | EmptyString => true
  end.

(** An unsigned integer literal: [0], or digits not starting with [0]. *)
Definition p_natural (s : string) : option (N * string) :=
  match s with
  | String c s' =>
      if Nat.eqb (code c) 48 then
        match s' with
        | String d _ => if is_digit d then None
                        else if integral s' then Some (0%N, s') else None
        | EmptyString => Some (0%N, s')
        end
      else if is_digit c then
        let '(n, rest) := p_digits s 0%N in
        if integral rest then Some (n, rest) else None
      else None
  | EmptyString => None
  end.

Definition p_number (s : string) : option (Z * string) :=
  match s with
  | String c s' =>
      if Nat.eqb (code c) 45 then
        match p_natural s' with
        | Some (n, rest) => Some ((- Z.of_N n)%Z, rest)
        | None => None
        end
      else
        match p_natural s with
        | Some (n, rest) => Some (Z.of_N n, rest)
        | None => None
        end
  | EmptyString => None
  end.

Definition starts_with (n : nat) (s : string) : option string :=
  match s with
  | String c s' => if Nat.eqb (code c) n then Some s' else None
  | EmptyString => None
  end.

(** A value, the elements of an array after [[] or [,], the members of an
    object after [{] or [,].  [first] tells that the container may still
    close empty. *)
Fixpoint p_value (fuel : nat) (s : string) : option (value * string) :=
  match fuel with
  | O => None
  | S f =>
      let s := skip_ws s in
      match s with
      | EmptyString => None
      | String c s' =>
          let n := code c in
          if Nat.eqb n 123 then p_members f s' [] true
          else if Nat.eqb n 91 then p_elements f s' [] true
          else if Nat.eqb n 34 then
            match p_chars s' with
            | Some (body, rest) => Some (VStr body, rest)
            | None => None
            end
          else if Nat.eqb n 110 then
            option_map (fun r => (VNull, r)) (strip "null" s)
          else if Nat.eqb n 116 then
            option_map (fun r => (VBool true, r)) (strip "true" s)
          else if Nat.eqb n 102 then
            option_map (fun r => (VBool false, r)) (strip "false" s)
          else
            match p_number s with
            | Some (z, rest) => Some (VNum z, rest)
            | None => None
            end
      end
  end
with p_elements (fuel : nat) (s : string) (acc : list (option value))
  (first : bool) : option (value * string) :=
  match fuel with
  | O => None
  | S f =>
      match starts_with 93 (skip_ws s), first with
      | Some rest, true => Some (VArr acc [], rest)
      | _, _ =>
          match p_value f s with
          | Some (v, s1) =>
              let acc' := (acc ++ [Some v])%list in
              let s2 := skip_ws s1 in
              match starts_with 44 s2, starts_with 93 s2 with
              | Some s3, _ => p_elements f s3 acc' false
              | None, Some rest => Some (VArr acc' [], rest)
              | None, None => None
              end
          | None => None
          end
      end
  end
with p_members (fuel : nat) (s : string) (acc : list (string * value))
  (first : bool) : option (value * string) :=
  match fuel with
  | O => None
  | S f =>
      match starts_with 125 (skip_ws s), first with
      | Some rest, true => Some (VObj acc, rest)
      | _, _ =>
          match starts_with 34 (skip_ws s) with
          | Some s0 =>
              match p_chars s0 with
              | Some (k, s1) =>
                  match starts_with 58 (skip_ws s1) with
                  | Some s2 =>
                      match p_value f s2 with
                      | Some (v, s3) =>
                          let acc' := assign k v acc in
                          let s4 := skip_ws s3 in
                          match starts_with 44 s4, starts_with 125 s4 with
                          | Some s5, _ => p_members f s5 acc' false
                          | None, Some rest => Some (VObj acc', rest)
                          | None, None => None
                          end
                      | None => None
                      end
                  | None => None
                  end
              | None => None
              end
          | None => None
          end
      end
  end.

Definition parse (s : string) : value + string :=
  match p_value (2 * String.length s + 2) s with
  | Some (v, rest) =>
      match skip_ws rest with
      | EmptyString => inl v
      | _ => inr "Unexpected non-whitespace character after JSON"
      end
  | None => inr "Unexpected token in JSON"
  end.

Definition describe (v : value) (k : string) : string :=
  "Cannot access property '" ++ k ++ "' of " ++ JSON_stringify v.

#[export] Instance host : Host :=
  {| host_defines := defines;
     JSON_parse := parse;
     type_error_message := describe |}.

End Reference.

(* ------------------------------------------------------------------ *)
(** ** The component and its collaborators *)

Module NodeData.
Record t : Type :=
  mk { id : string; text : list NodeRow.t; path : option (list segment) }.
End NodeData.

(** The four [useState] cells of [NodeModal]. *)
Record component : Type := mkComponent {
  editValue : string;
  displayContent : string;
  error : option string;
  isEditing : bool
}.

(** The component together with what it reads and writes outside itself:
    the selected node of [useGraph], the text [useJson.getState().getJson()]
    returns, the arguments of the calls of [useFile.getState().setContents]
    (oldest first) and the number of calls of [onClose]. *)
Record world : Type := mkWorld {
  selectedNode : option NodeData.t;
  ui : component;
  json : string;
  contents : list string;
  closed : nat
}.

(** A handler: it reads and updates the world, returns, throws, or runs
    into a host-defined property. *)
Definition M (A : Type) : Type := world -> outcome A world.

Definition pure {A} (a : A) : M A := fun w => Done a w.

Definition bind {A B} (m : M A) (k : A -> M B) : M B :=
  fun w =>
    match m w with
    | Done a w' => k a w'
    | Raised e w' => Raised e w'
    | Beyond => Beyond
    end.

Definition throw {A} (e : exn) : M A := fun w => Raised e w.

(** [try { body } catch (err) { handler }] *)
Definition try_catch {A} (body : M A) (handler : exn -> M A) : M A :=
  fun w =>
    match body w with
    | Raised e w' => handler e w'
    | o => o
    end.

Definition gets {A} (f : world -> A) : M A := fun w => Done (f w) w.

Definition modify (f : world -> world) : M unit := fun w => Done tt (f w).

Definition lift {A} (c : completion A) : M A :=
  fun w =>
    match c with
    | Normal a => Done a w
    | Throw e => Raised e w
    | Exotic => Beyond
    end.

(** A call on a local object: its final state is returned along with the
    result; it is lost when the call throws. *)
Definition call {A S} (o : outcome A S) : M (A * S) :=
  fun w =>
    match o with
    | Done a s => Done (a, s) w
    | Raised e _ => Raised e w
    | Beyond => Beyond
    end.

Declare Scope handler_scope.
Delimit Scope handler_scope with handler.
Notation "x <- m ;; k" := (bind m (fun x => k))
  (at level 61, m at next level, right associativity) : handler_scope.
Notation "m ;; k" := (bind m (fun _ => k))
  (at level 61, right associativity) : handler_scope.

Definition with_ui (f : component -> component) (w : world) : world :=
  mkWorld (selectedNode w) (f (ui w)) (json w) (contents w) (closed w).

Definition setEditValue (s : string) : M unit :=
  modify (with_ui (fun c =>
    mkComponent s (displayContent c) (error c) (isEditing c))).

Definition setDisplayContent (s : string) : M unit :=
  modify (with_ui (fun c =>
    mkComponent (editValue c) s (error c) (isEditing c))).

Definition setError (e : option string) : M unit :=
  modify (with_ui (fun c =>
    mkComponent (editValue c) (displayContent c) e (isEditing c))).

Definition setIsEditing (b : bool) : M unit :=
  modify (with_ui (fun c =>
    mkComponent (editValue c) (displayContent c) (error c) b)).

(** [useFile.getState().setContents({ contents })] *)
Definition setContents (s : string) : M unit :=
  modify (fun w =>
    mkWorld (selectedNode w) (ui w) (json w) (contents w ++ [s])%list (closed w)).

Definition onClose : M unit :=
  modify (fun w =>
    mkWorld (selectedNode w) (ui w) (json w) (contents w) (S (closed w))).

(** [nodeData?.text ?? []] *)
Definition node_text (w : world) : list NodeRow.t :=
  match selectedNode w with
  | Some nd => NodeData.text nd
  | None => []
  end.

(** [nodeData?.path] *)
Definition node_path (w : world) : option (list segment) :=
  match selectedNode w with
  | Some nd => NodeData.path nd
  | None => None
  end.

(** The truth value of what [setValueAtPath] returned. *)
Definition truthy (r : ret) : bool :=
  match r with
  | RetBool b => b
  | RetValue VNull => false
  | RetValue (VBool b) => b
  | RetValue (VNum n) => negb (Z.eqb n 0)
  | RetValue (VStr s) => negb (String.eqb s EmptyString)
  | RetValue _ => true
  end.

(** What happens to the mounted component: a click on Edit, a change of
    the text area, a click on Save or on Cancel, a request to close the
    modal, a change of the selected node in its identity or its rows (which
    fires the effect), and a change of the text of the store. *)
Inductive event : Type :=
| ClickEdit
| Change (s : string)
| ClickSave
| ClickCancel
| RequestClose
| Select (nd : option NodeData.t)
| JsonChanged (s : string).

Section Handlers.
Context {host : Host}.
Local Open Scope handler_scope.

Definition parse (s : string) : M value :=
  fun w =>
    match JSON_parse s with
    | inl v => Done v w
    | inr msg => Raised (mkExn SyntaxError msg) w
    end.

(** [normalizeNodeData(nodeData?.text ?? [])] *)
Definition normalized : M string :=
  rows <- gets node_text ;; lift (normalizeNodeData rows).

(** The body of the outer [try] of [handleSave]. *)
Definition save_body : M unit :=
  text <- gets (fun w => editValue (ui w)) ;;
  parsed <- parse text ;;
  doc <- gets json ;;
  rootJson <- parse doc ;;
  path <- gets node_path ;;
  match path with
  | None | Some [] => setContents (JSON_stringify parsed)
  | Some (_ :: _) =>
      r <- call (setValueAtPath rootJson path parsed) ;;
      if negb (truthy (fst r))
      then throw (mkExn PlainError "Failed to update value at path")
      else setContents (JSON_stringify (snd r))
  end ;;
  setIsEditing false ;;
  try_catch
    (setDisplayContent (JSON_stringify parsed))
    (fun _ => n <- normalized ;; setDisplayContent n).

(** Every error thrown here is an error object, whose [message] is a
    string: the alternative ["Invalid JSON"] of [err?.message ?? ...]
    is never taken. *)
Definition handleSave : M unit :=
  setError None ;;
  try_catch save_body (fun err => setError (Some (message err))).

Definition handleCancel : M unit :=
  n <- normalized ;;
  setEditValue n ;;
  setError None ;;
  setIsEditing false.

Definition handleClose : M unit :=
  editing <- gets (fun w => isEditing (ui w)) ;;
  (if editing then handleCancel else pure tt) ;;
  onClose.

(** The effect on [nodeData?.id] and [nodeData?.text]. *)
Definition reset : M unit :=
  n <- normalized ;;
  setDisplayContent n ;;
  setEditValue n ;;
  setError None ;;
  setIsEditing false.

(** The Edit button shows while viewing; the text area and the buttons
    Cancel and Save show while editing. *)
Definition enabled (w : world) (e : event) : bool :=
  match e with
  | ClickEdit => negb (isEditing (ui w))
  | Change _ | ClickSave | ClickCancel => isEditing (ui w)
  | RequestClose | Select _ | JsonChanged _ => true
  end.

Definition handler (e : event) : M unit :=
  match e with
  | ClickEdit => setIsEditing true
  | Change s => setEditValue s
  | ClickSave => handleSave
  | ClickCancel => handleCancel
  | RequestClose => handleClose
  | Select nd =>
      modify (fun w =>
        mkWorld nd (ui w) (json w) (contents w) (closed w)) ;;
      reset
  | JsonChanged s =>
      modify (fun w =>
        mkWorld (selectedNode w) (ui w) s (contents w) (closed w))
  end.

Definition step (w : world) (e : event) : option world :=
  if enabled w e then
    match handler e w with
    | Done _ w' => Some w'
    | _ => None
    end
  else None.

Fixpoint exec (w : world) (evs : list event) : option world :=
  match evs with
  | [] => Some w
  | e :: evs' =>
      match step w e with
      | Some w' => exec w' evs'
      | None => None
      end
  end.

(** The component as first rendered for the node [nd], over a store
    whose JSON text is [doc]. *)
Definition mount (nd : option NodeData.t) (doc : string) : option world :=
  match normalizeNodeData
          (match nd with Some n => NodeData.text n | None => [] end) with
  | Normal n => Some (mkWorld nd (mkComponent n n None false) doc [] 0)
  | _ => None
  end.

End Handlers.

(* ------------------------------------------------------------------ *)
(** ** The vocabulary of the specification *)

(** The child a document holds under a segment: an own property of an
    object for a key, an element of an array for an index. *)
Definition child_at (cur : value) (seg : segment) : option value :=
  match seg, cur with
  | Key k, VObj ps => lookup k ps
  | Index n, VArr es _ =>
      if (n <? max_array_index)%N then read_index es (N.to_nat n) else None
  | _, _ => None
  end.

(** Reading the value at a path. *)
Fixpoint getAtPath (doc : value) (path : list segment) : option value :=
  match path with
  | [] => Some doc
  | seg :: rest =>
      match child_at doc seg with
      | Some child => getAtPath child rest
      | None => None
      end
  end.

(** The document [doc] once the value it holds at [path] has become [v]. *)
Fixpoint plug (doc : value) (path : list segment) (v : value) : value :=
  match path with
  | [] => v
  | seg :: rest =>
      match child_at doc seg with
      | Some child => with_child doc seg (plug child rest v)
      | None => doc
      end
  end.

(** The document a call of [setValueAtPath] hands back: the value itself
    when it replaced the root, the mutated root when it returned [true]. *)
Definition returned_document (o : outcome ret value) : option value :=
  match o with
  | Done (RetValue v) _ => Some v
  | Done (RetBool true) doc => Some doc
  | _ => None
  end.

Section Vocabulary.
Context {host : Host}.

(** A path that resolves in a document: an object at every key, where a
    missing key stands for the empty object to be created, and an array
    with that index in bounds at every index. *)
Fixpoint resolves (cur : value) (path : list segment) : bool :=
  match path with
  | [] => true
  | Key k :: rest =>
      match cur with
      | VObj ps =>
          match lookup k ps with
          | Some child =>
              match rest with
              | [] => true
              | _ => resolves child rest
              end
          | None => negb (host_defines KObject k) && resolves (VObj []) rest
          end
      | _ => false
      end
  | Index n :: rest =>
      match cur with
      | VArr es _ =>
          (n <? max_array_index)%N &&
          match rest with
          | [] => Nat.ltb (N.to_nat n) (List.length es)
          | _ =>
              match read_index es (N.to_nat n) with
              | Some child => resolves child rest
              | None => false
              end
          end
      | _ => false
      end
  end.

(** The mutation did not go through: it returned a falsy value or threw. *)
Definition failed (o : outcome ret value) : bool :=
  match o with
  | Done r _ => negb (truthy r)
  | Raised _ _ => true
  | Beyond => false
  end.

(** Why a save fails, with the message it reports. *)
Inductive save_failure (w : world) : string -> Prop :=
| edit_text_invalid msg :
    JSON_parse (editValue (ui w)) = inr msg ->
    save_failure w msg
| document_invalid parsed msg :
    JSON_parse (editValue (ui w)) = inl parsed ->
    JSON_parse (json w) = inr msg ->
    save_failure w msg
| mutation_refused parsed root seg rest r root' :
    JSON_parse (editValue (ui w)) = inl parsed ->
    JSON_parse (json w) = inl root ->
    node_path w = Some (seg :: rest) ->
    setValueAtPath root (Some (seg :: rest)) parsed = Done r root' ->
    truthy r = false ->
    save_failure w "Failed to update value at path"
| mutation_threw parsed root seg rest e root' :
    JSON_parse (editValue (ui w)) = inl parsed ->
    JSON_parse (json w) = inl root ->
    node_path w = Some (seg :: rest) ->
    setValueAtPath root (Some (seg :: rest)) parsed = Raised e root' ->
    save_failure w (message e).

(** When a save goes through, with the parsed edit and the new document:
    the edited text and the text of the store parse, which [handleSave]
    asks first also for the root node, and for a path that is not empty
    the mutator returns a truthy value. *)
Inductive save_success (w : world) : value -> value -> Prop :=
| root_replaced parsed root :
    JSON_parse (editValue (ui w)) = inl parsed ->
    JSON_parse (json w) = inl root ->
    node_path w = None \/ node_path w = Some [] ->
    save_success w parsed parsed
| subtree_replaced parsed root seg rest r root' :
    JSON_parse (editValue (ui w)) = inl parsed ->
    JSON_parse (json w) = inl root ->
    node_path w = Some (seg :: rest) ->
    setValueAtPath root (Some (seg :: rest)) parsed = Done r root' ->
    truthy r = true ->
    save_success w parsed root'.

(** The world a successful save leaves. *)
Definition saved (w : world) (parsed doc : value) : world :=
  mkWorld (selectedNode w)
    (mkComponent (editValue (ui w)) (JSON_stringify parsed) None false)
    (json w) (contents w ++ [JSON_stringify doc])%list (closed w).

(** The world a failed save leaves. *)
Definition refused (w : world) (msg : string) : world :=
  with_ui (fun c =>
    mkComponent (editValue c) (displayContent c) (Some msg) (isEditing c)) w.

(** The displayed text is the projection of the rows of the selected node. *)
Definition view_is_projection (w : world) : Prop :=
  normalizeNodeData (node_text w) = Normal (displayContent (ui w)).

(** The last save of the run [evs] from [w0] failed with [msg]. *)
Definition last_save_failed (w0 : world) (evs : list event) (msg : string)
  : Prop :=
  exists pre post w,
    evs = (pre ++ ClickSave :: post)%list /\
    ~ In ClickSave post /\
    exec w0 pre = Some w /\
    save_failure w msg.

(** A key is plain when it is not the name of an array index and not a
    name the host defines on objects. *)
Definition plain_key (k : string) : Prop :=
  array_index_of k = None /\ host_defines KObject k = false.

(** The rows the projector keeps: not a container, and with a key that is
    not empty. *)
Definition kept (rows : list NodeRow.t) : list (string * value) :=
  flat_map (fun r =>
    if is_container (NodeRow.type r) then []
    else match truthy_key r with
         | Some k => [(k, of_scalar (NodeRow.value r))]
         | None => []
         end) rows.

(** The projection, with the keys in the order of the rows. *)
Definition projection (rows : list NodeRow.t) : string :=
  match rows with
  | [] => "{}"
  | row0 :: others =>
      match others, truthy_key row0 with
      | [], None => to_string (NodeRow.value row0)
      | _, _ => JSON_stringify (VObj (kept rows))
      end
  end.

(** The projection in the words of the specification: one row without a
    key gives the JSON text of its value; otherwise the rows that have a
    key and are not containers, in their order. *)
Definition specified_projection (rows : list NodeRow.t) : string :=
  match rows with
  | [] => "{}"
  | [NodeRow.mk None v _] => JSON_stringify (of_scalar v)
  | _ =>
      JSON_stringify (VObj (flat_map (fun r =>
        if is_container (NodeRow.type r) then []
        else match NodeRow.key r with
             | Some k => [(k, of_scalar (NodeRow.value r))]
             | None => []
             end) rows))
  end.

End Vocabulary.

(* ------------------------------------------------------------------ *)
(** ** Sample documents, nodes and runs *)

Module Samples.

Definition number (n : Z) : option value := Some (VNum n).

(** [{a: 1}], [{a: [1]}], [{a: [1, 2, 3]}], [{a: {b: 1}}] *)
Definition a_one : value := VObj [("a", VNum 1)].
Definition a_list : value := VObj [("a", VArr [number 1] [])].
Definition a_triple : value :=
  VObj [("a", VArr [number 1; number 2; number 3] [])].
Definition a_b_one : value := VObj [("a", VObj [("b", VNum 1)])].

(** The JSON text of [{a: n}], as a user types it. *)
Definition a_text (n : string) : string :=
  "{" ++ quote ++ "a" ++ quote ++ ":" ++ n ++ "}".

Definition row (k : string) (x : scalar) (t : row_type) : NodeRow.t :=
  NodeRow.mk (Some k) x t.

(** The root node of the document [{a: 1}]. *)
Definition root_node : NodeData.t :=
  NodeData.mk "root" [row "a" (SNum 1) TNumber] (Some []).

(** A node whose path leads through [a] to the element [0]. *)
Definition element_node : NodeData.t :=
  NodeData.mk "element" [NodeRow.mk None (SNum 1) TNumber]
    (Some [Key "a"; Index 0%N]).

(** The user edits, saves, edits again and cancels. *)
Definition save_then_cancel : list event :=
  [ClickEdit; Change (a_text "2"); ClickSave;
   ClickEdit; Change "draft"; ClickCancel].

(** The user types a text that is not JSON and saves. *)
Definition save_draft : list event := [ClickEdit; Change "draft"; ClickSave].

(** A component in the middle of an edit of [node] over the store text
    [doc]. *)
Definition editing (node : NodeData.t) (doc text : string) : world :=
  mkWorld (Some node) (mkComponent text "1" None true) doc [] 0.

(** Two rows whose keys are [b] and [1], in this order. *)
Definition b_then_1 : list NodeRow.t :=
  [row "b" (SNum 1) TNumber; row "1" (SNum 2) TNumber].

Definition a_then_b : list NodeRow.t :=
  [row "a" (SNum 1) TNumber; row "b" (SStr "x") TString;
   row "c" (SStr "[2 items]") TArray].

End Samples.

(* ------------------------------------------------------------------ *)
(** ** The path formatter *)

(** A segment as [path.map] leaves it and [join] prints it: a number in
    decimal, a string between quotes, as it is. *)
Definition render_segment (seg : segment) : string :=
  match seg with
  | Index n => string_of_N n
  | Key k => quote ++ k ++ quote
  end.

Definition jsonPathToString (path : option (list segment)) : string :=
  match path with
  | None | Some [] => "$"
  | Some p => "$[" ++ join "][" (map render_segment p) ++ "]"
  end.

(* ------------------------------------------------------------------ *)
(** ** More vocabulary *)

(** Every segment between its own brackets. *)
Fixpoint bracketed (p : list segment) : string :=
  match p with
  | [] => EmptyString
  | seg :: rest => "[" ++ render_segment seg ++ "]" ++ bracketed rest
  end.

(** The character [c] does not occur in [s]. *)
Fixpoint free_of (c : ascii) (s : string) : bool :=
  match s with
  | EmptyString => true
  | String a s' => negb (Ascii.eqb a c) && free_of c s'
  end.

(** A segment whose text holds no quote of its own. *)
Definition unquoted (seg : segment) : bool :=
  match seg with
  | Index _ => true
  | Key k => free_of "034"%char k
  end.

(** The object [keys] lead to through objects of one member each, down to
    [v]. *)
Fixpoint nest (keys : list string) (v : value) : value :=
  match keys with
  | [] => v
  | k :: rest => VObj [(k, nest rest v)]
  end.

(** The state a call leaves, if the run is within the model. *)
Definition state_of {A S : Type} (o : outcome A S) : option S :=
  match o with
  | Done _ s => Some s
  | Raised _ s => Some s
  | Beyond => None
  end.

Definition is_save (e : event) : bool :=
  match e with
  | ClickSave => true
  | _ => false
  end.

(** The number of clicks on Save in a run. *)
Definition saves (evs : list event) : nat := List.length (filter is_save evs).

(** The last value a list of members gives to a key. *)
Definition last_value (k : string) (members : list (string * value))
  : option value :=
  lookup k (rev members).

(** A decimal digit, and a text made of digits. *)
Definition digit (c : ascii) : bool :=
  let n := nat_of_ascii c in Nat.leb 48 n && Nat.leb n 57.

Fixpoint digits (s : string) : bool :=
  match s with
  | EmptyString => true
  | String c s' => digit c && digits s'
  end.

(** One value stands alone: a single row without a truthy key, which the
    projector shows by itself and not as an object. *)
Definition single_value (rows : list NodeRow.t) : bool :=
  match rows with
  | [r] => match truthy_key r with
           | None => true
           | Some _ => false
           end
  | _ => false
  end.

(** The keys that name array indices come first, in ascending order of
    the index, from [bound] on. *)
Fixpoint index_first (bound : N) (ks : list string) : Prop :=
  match ks with
  | [] => True
  | k :: ks' =>
      match array_index_of k with
      | Some n => (bound <= n)%N /\ index_first (n + 1) ks'
      | None => Forall (fun k' => array_index_of k' = None) ks'
      end
  end.

(** The keys of an object are in the order of the host: no key twice, the
    array indices first and ascending. *)
Definition host_order (ps : list (string * value)) : Prop :=
  NoDup (map fst ps) /\ index_first 0 (map fst ps).

Module MoreSamples.

(** The path [customer], [0], shown as [$["customer"][0]]. *)
Definition customer_0 : list segment := [Key "customer"; Index 0%N].

(** Two rows with the key [a]; the second gives the value. *)
Definition a_twice : list NodeRow.t :=
  [Samples.row "a" (SNum 1) TNumber; Samples.row "a" (SNum 2) TNumber].

(** The fields of the node are all containers. *)
Definition containers_only : list NodeRow.t :=
  [Samples.row "items" (SStr "[2 items]") TArray;
   Samples.row "owner" (SStr "{3 keys}") TObject].

(** A node that is the string [hello], at the key [a]. *)
Definition hello_row : NodeRow.t := NodeRow.mk None (SStr "hello") TString.

Definition hello_node : NodeData.t :=
  NodeData.mk "hello" [hello_row] (Some [Key "a"]).

(** A node at the member [b] of the member [a]. *)
Definition member_node : NodeData.t :=
  NodeData.mk "member" [NodeRow.mk None (SNum 1) TNumber]
    (Some [Key "a"; Key "b"]).

(** The JSON text of [{a: {b: 1}}]. *)
Definition store_text : string :=
  "{" ++ quote ++ "a" ++ quote ++ ":{" ++ quote ++ "b" ++ quote ++ ":1}}".

(** The component mounted on the root node of [{"a":1}], the same while
    the user types [draft], after the modal is closed from there, and
    after the run [save_then_cancel]. *)
Definition mounted_root : world :=
  mkWorld (Some Samples.root_node)
    (mkComponent (JSON_stringify Samples.a_one) (JSON_stringify Samples.a_one)
       None false)
    (Samples.a_text "1") [] 0.

Definition typing_draft : world :=
  mkWorld (Some Samples.root_node)
    (mkComponent "draft" (JSON_stringify Samples.a_one) None true)
    (Samples.a_text "1") [] 0.

Definition closed_from_draft : world :=
  mkWorld (Some Samples.root_node)
    (mkComponent (JSON_stringify Samples.a_one)
       (JSON_stringify Samples.a_one) None false)
    (Samples.a_text "1") [] 1.

Definition after_save_then_cancel : world :=
  mkWorld (Some Samples.root_node)
    (mkComponent (JSON_stringify Samples.a_one)
       (JSON_stringify (VObj [("a", VNum 2)])) None false)
    (Samples.a_text "1") [JSON_stringify (VObj [("a", VNum 2)])] 0.

End MoreSamples.

(* ------------------------------------------------------------------ *)
(** ** Own properties and elements *)

Lemma lookup_replace (k : string) (v u : value) (ps : list (string * value)) :
  lookup k ps = Some u -> lookup k (replace k v ps) = Some v.
Proof.
  induction ps as [|[k' v'] ps IH]; simpl; [discriminate|].
  destruct (String.eqb k k') eqn:E; simpl; rewrite E; auto.
Qed.

Lemma replace_same (k : string) (v : value) (ps : list (string * value)) :
  lookup k ps = Some v -> replace k v ps = ps.
Proof.
  induction ps as [|[k' v'] ps IH]; simpl; [reflexivity|].
  destruct (String.eqb k k') eqn:E.
  - intros H. injection H as ->. reflexivity.
  - intros H. rewrite IH by assumption. reflexivity.
Qed.

Lemma lookup_app_new (k : string) (v : value) (ps : list (string * value)) :
  lookup k ps = None -> lookup k (ps ++ [(k, v)])%list = Some v.
Proof.
  induction ps as [|[k' v'] ps IH]; simpl.
  - rewrite String.eqb_refl. reflexivity.
  - destruct (String.eqb k k'); [discriminate | exact IH].
Qed.

Lemma lookup_insert_index (n : N) (k : string) (v : value)
  (ps : list (string * value)) :
  lookup k ps = None -> lookup k (insert_index n k v ps) = Some v.
Proof.
  induction ps as [|[k' v'] ps IH]; simpl.
  - rewrite String.eqb_refl. reflexivity.
  - destruct (String.eqb k k') eqn:E; [discriminate|]. intros H.
    destruct (array_index_of k') as [m|].
    + destruct (m <? n)%N; simpl.
      * rewrite E. auto.
      * rewrite String.eqb_refl. reflexivity.
    + simpl. rewrite String.eqb_refl. reflexivity.
Qed.

Lemma lookup_assign (k : string) (v : value) (ps : list (string * value)) :
  lookup k (assign k v ps) = Some v.
Proof.
  unfold assign. destruct (lookup k ps) as [u|] eqn:E.
  - eapply lookup_replace; eassumption.
  - destruct (array_index_of k).
    + apply lookup_insert_index; assumption.
    + apply lookup_app_new; assumption.
Qed.

Lemma read_write_index (es : list (option value)) (n : nat) (v : value) :
  read_index (write_index es n v) n = Some v.
Proof.
  unfold read_index. revert es.
  induction n as [|n IH]; intros [|e es]; simpl; auto.
Qed.

Lemma write_index_same (es : list (option value)) (n : nat) (v : value) :
  read_index es n = Some v -> write_index es n v = es.
Proof.
  unfold read_index. revert es.
  induction n as [|n IH]; intros [|e es]; simpl; try discriminate.
  - destruct e; [|discriminate]. intros H. injection H as ->. reflexivity.
  - intros H. rewrite IH by assumption. reflexivity.
Qed.

Lemma length_write_index (es : list (option value)) (n : nat) (v : value) :
  List.length (write_index es n v) = Nat.max (List.length es) (S n).
Proof.
  revert es. induction n as [|n IH]; intros [|e es]; simpl; auto.
  rewrite Nat.max_0_r. reflexivity.
Qed.

(** Below the old length, writing at [n] touches no other element. *)
Lemma write_index_other (es : list (option value)) (n m : nat) (v : value) :
  m <> n -> m < List.length es ->
  nth_error (write_index es n v) m = nth_error es m.
Proof.
  revert es m. induction n as [|n IH]; intros [|e es] [|m]; simpl;
    intros Hne Hlt; try lia; try reflexivity.
  apply IH; lia.
Qed.

(** From the old length up to [n], writing at [n] leaves holes. *)
Lemma write_index_hole (es : list (option value)) (n m : nat) (v : value) :
  List.length es <= m -> m < n ->
  nth_error (write_index es n v) m = Some None.
Proof.
  revert es m. induction n as [|n IH]; intros [|e es] [|m]; simpl;
    intros Hle Hlt; try lia; try reflexivity.
  - apply (IH []); simpl; lia.
  - apply IH; lia.
Qed.

Lemma child_with_child (cur : value) (seg : segment) (c c' : value) :
  child_at cur seg = Some c -> child_at (with_child cur seg c') seg = Some c'.
Proof.
  destruct seg as [k|n], cur; unfold child_at, with_child; try discriminate.
  - apply lookup_replace.
  - destruct (n <? max_array_index)%N eqn:E; [|discriminate].
    intros _. apply read_write_index.
Qed.

Lemma with_child_same (cur : value) (seg : segment) (c : value) :
  child_at cur seg = Some c -> with_child cur seg c = cur.
Proof.
  destruct seg as [k|n], cur; unfold child_at, with_child; try discriminate.
  - intros H. rewrite replace_same by assumption. reflexivity.
  - destruct (n <? max_array_index)%N; [|discriminate].
    intros H. rewrite write_index_same by assumption. reflexivity.
Qed.

Lemma getAtPath_plug (path : list segment) (doc c v : value) :
  getAtPath doc path = Some c -> getAtPath (plug doc path v) path = Some v.
Proof.
  revert doc. induction path as [|seg rest IH]; intros doc; simpl.
  - reflexivity.
  - destruct (child_at doc seg) as [child|] eqn:E; [|discriminate].
    intros H. rewrite (child_with_child _ _ _ _ E). apply IH. exact H.
Qed.

Lemma plug_same (path : list segment) (doc c : value) :
  getAtPath doc path = Some c -> plug doc path c = doc.
Proof.
  revert doc. induction path as [|seg rest IH]; intros doc; simpl.
  - congruence.
  - destruct (child_at doc seg) as [child|] eqn:E; [|discriminate].
    intros H. rewrite IH by assumption. apply with_child_same. exact E.
Qed.

(* ------------------------------------------------------------------ *)
(** ** The walk of [setValueAtPath] *)

Section MutatorFacts.
Context {host : Host}.

(** One turn of the loop through a child that is there. *)
Lemma walk_descend (cur child : value) (seg next : segment)
  (rest : list segment) (v : value) :
  child_at cur seg = Some child ->
  walk cur seg (next :: rest) v = within cur seg (walk child next rest v).
Proof.
  destruct seg as [k|n], cur; unfold child_at; try discriminate; intros H.
  - cbn [walk]. unfold vivify. cbn [get_prop]. rewrite H. cbn [get_prop].
    rewrite H. reflexivity.
  - destruct (n <? max_array_index)%N eqn:E; [|discriminate].
    cbn [walk isArray negb get_index]. rewrite E, H. reflexivity.
Qed.

Lemma remap_remap {A S T U} (f : S -> T) (g : T -> U) (o : outcome A S) :
  remap g (remap f o) = remap (fun s => g (f s)) o.
Proof. destruct o; reflexivity. Qed.

Lemma remap_ext {A S T} (f g : S -> T) (o : outcome A S) :
  (forall s, f s = g s) -> remap f o = remap g o.
Proof. intros H. destruct o; simpl; rewrite ?H; reflexivity. Qed.

(** Walking a prefix that reads through the document brings the cursor to
    the value at the prefix; what happens from there is seen from the root
    by plugging the cursor back. *)
Lemma walk_along (pre : list segment) (doc c : value) (seg : segment)
  (rest : list segment) (v : value) :
  getAtPath doc pre = Some c ->
  walk_from doc (pre ++ seg :: rest)%list v
  = remap (plug doc pre) (walk c seg rest v).
Proof.
  revert doc. induction pre as [|p pre IH]; intros doc.
  - cbn [getAtPath app walk_from plug]. intros H. injection H as ->.
    destruct (walk c seg rest v); reflexivity.
  - cbn [getAtPath plug].
    destruct (child_at doc p) as [child|] eqn:E; [|discriminate]. intros H.
    specialize (IH child H).
    destruct pre as [|p' pre]; cbn [app walk_from] in *.
    + rewrite (walk_descend _ _ _ _ _ _ E). unfold within. rewrite IH.
      rewrite remap_remap. reflexivity.
    + rewrite (walk_descend _ _ _ _ _ _ E). unfold within. rewrite IH.
      rewrite remap_remap. reflexivity.
Qed.

Lemma setValueAtPath_walk_from (doc : value) (path : list segment) (v : value) :
  setValueAtPath doc (Some path) v = walk_from doc path v.
Proof. destruct path; reflexivity. Qed.

(** A string segment met with a scalar under the cursor: the read of a
    property of [null] throws, and so does the assignment on a primitive. *)
Lemma walk_scalar_key (c : value) (k : string) (rest : list segment)
  (v : value) :
  is_scalar c = true -> exotic_key c k = false ->
  walk c (Key k) rest v = Raised (type_error c k) c.
Proof.
  intros Hs Hx.
  destruct c; try discriminate; destruct rest; cbn [walk];
    unfold vivify; cbn [get_prop put_prop]; rewrite ?Hx;
    cbn [put_prop]; rewrite ?Hx; reflexivity.
Qed.

(** C1, as amended.  When the walk of [setValueAtPath] reaches a string
    segment with a scalar under the cursor ([null], a boolean, a number or
    a string), the call fails: it throws a [TypeError] and leaves the
    document as it was.  The cursor is the value the document holds at the
    prefix [pre] of the path; the key is not a name the host defines for
    that scalar. *)
Theorem setValueAtPath_scalar_at_key (doc : value) (pre : list segment)
  (k : string) (post : list segment) (v c : value) :
  getAtPath doc pre = Some c ->
  is_scalar c = true ->
  exotic_key c k = false ->
  exists e,
    setValueAtPath doc (Some (pre ++ Key k :: post)%list) v = Raised e doc /\
    name e = TypeError.
Proof.
  intros Hc Hs Hx. exists (type_error c k). split; [|reflexivity].
  rewrite setValueAtPath_walk_from, (walk_along _ _ _ _ _ _ Hc).
  rewrite walk_scalar_key by assumption. cbn [remap].
  rewrite (plug_same _ _ _ Hc). reflexivity.
Qed.

(** C3, as amended.  When the cursor at the last segment is an array and
    the segment is an array index, [setValueAtPath] returns [true] for every
    index: the element at [n] becomes the value, the array grows to
    [max length (n + 1)], the elements below the old length are kept and
    the slots between the old length and [n] are holes. *)
Theorem setValueAtPath_any_index (doc : value) (pre : list segment) (n : N)
  (v : value) (es : list (option value)) (xs : list (string * value)) :
  getAtPath doc pre = Some (VArr es xs) ->
  (n < max_array_index)%N ->
  exists doc' es',
    setValueAtPath doc (Some (pre ++ [Index n])%list) v = Done (RetBool true) doc' /\
    getAtPath doc' pre = Some (VArr es' xs) /\
    read_index es' (N.to_nat n) = Some v /\
    List.length es' = Nat.max (List.length es) (S (N.to_nat n)) /\
    (forall m, m < List.length es -> m <> N.to_nat n ->
               nth_error es' m = nth_error es m) /\
    (forall m, List.length es <= m -> m < N.to_nat n ->
               nth_error es' m = Some None).
Proof.
  intros Hc Hn. apply N.ltb_lt in Hn.
  exists (plug doc pre (VArr (write_index es (N.to_nat n) v) xs)),
         (write_index es (N.to_nat n) v).
  split; [|split; [|split; [|split; [|split]]]].
  - rewrite setValueAtPath_walk_from, (walk_along _ _ _ _ _ _ Hc).
    cbn [walk isArray negb put_index]. rewrite Hn. reflexivity.
  - eapply getAtPath_plug; eassumption.
  - apply read_write_index.
  - apply length_write_index.
  - intros m Hm Hne. apply write_index_other; assumption.
  - intros m Hm Hlt. apply write_index_hole; assumption.
Qed.

Lemma walk_roundtrip (rest : list segment) :
  forall (seg : segment) (cur v : value),
    resolves cur (seg :: rest) = true ->
    exists cur',
      walk cur seg rest v = Done (RetBool true) cur' /\
      getAtPath cur' (seg :: rest) = Some v.
Proof.
  induction rest as [|next rest IH]; intros seg cur v H.
  - destruct seg as [k|n], cur; cbn [resolves] in H; try discriminate.
    + cbn [walk put_prop]. destruct (lookup k props) as [u|] eqn:E.
      * eexists. split; [reflexivity|].
        cbn [getAtPath child_at]. rewrite (lookup_replace _ _ _ _ E).
        reflexivity.
      * apply andb_prop in H as [Hh _]. apply negb_true_iff in Hh.
        rewrite Hh. eexists. split; [reflexivity|].
        cbn [getAtPath child_at]. rewrite lookup_assign. reflexivity.
    + apply andb_prop in H as [Hn _].
      cbn [walk isArray negb put_index]. rewrite Hn.
      eexists. split; [reflexivity|].
      cbn [getAtPath child_at]. rewrite Hn, read_write_index. reflexivity.
  - destruct seg as [k|n], cur; cbn [resolves] in H; try discriminate.
    + destruct (lookup k props) as [child|] eqn:E.
      * destruct (IH next child v H) as (child' & Hw & Hg).
        rewrite (walk_descend (VObj props) child (Key k)) by exact E.
        rewrite Hw. eexists. split; [reflexivity|].
        cbn [getAtPath child_at with_child] in *.
        rewrite (lookup_replace _ _ _ _ E). exact Hg.
      * apply andb_prop in H as [Hh H]. apply negb_true_iff in Hh.
        destruct (IH next (VObj []) v H) as (child' & Hw & Hg).
        cbn [walk]. unfold vivify. cbn [get_prop put_prop].
        rewrite E, Hh. cbn [get_prop]. rewrite lookup_assign.
        unfold within. rewrite Hw. eexists. split; [reflexivity|].
        cbn [getAtPath child_at with_child] in *.
        rewrite (lookup_replace _ _ _ _ (lookup_assign k (VObj []) props)).
        exact Hg.
    + apply andb_prop in H as [Hn H].
      destruct (read_index elems (N.to_nat n)) as [child|] eqn:E;
        [|discriminate].
      destruct (IH next child v H) as (child' & Hw & Hg).
      assert (Hc : child_at (VArr elems named) (Index n) = Some child)
        by (cbn [child_at]; rewrite Hn; exact E).
      rewrite (walk_descend _ _ _ _ _ _ Hc). unfold within. rewrite Hw.
      eexists. split; [reflexivity|].
      cbn [remap]. cbn [getAtPath] in *.
      rewrite (child_with_child _ _ _ _ Hc). exact Hg.
Qed.

(** C4.  Round trip: for a path that resolves in the document, through
    objects at string segments and arrays with the index in bounds at
    integer segments, [setValueAtPath] hands back a document from which
    reading the same path yields the value that was set. *)
Theorem setValueAtPath_roundtrip (doc : value) (path : list segment)
  (v : value) :
  resolves doc path = true ->
  exists doc',
    returned_document (setValueAtPath doc (Some path) v) = Some doc' /\
    getAtPath doc' path = Some v.
Proof.
  destruct path as [|seg rest]; intros H.
  - exists v. split; reflexivity.
  - destruct (walk_roundtrip rest seg doc v H) as (doc' & Hw & Hg).
    exists doc'. cbn [setValueAtPath]. rewrite Hw. split; [reflexivity|exact Hg].
Qed.

End MutatorFacts.

(* ------------------------------------------------------------------ *)
(** ** The projector *)

Section ProjectorFacts.
Context {host : Host}.

Lemma lookup_None (k : string) (ps : list (string * value)) :
  ~ In k (map fst ps) -> lookup k ps = None.
Proof.
  induction ps as [|[k' v'] ps IH]; cbn [lookup map fst In]; intros H.
  - reflexivity.
  - destruct (String.eqb_spec k k') as [->|Hne].
    + exfalso. apply H. left. reflexivity.
    + apply IH. intros Hin. apply H. right. exact Hin.
Qed.

Lemma assign_new (k : string) (v : value) (ps : list (string * value)) :
  lookup k ps = None -> array_index_of k = None ->
  assign k v ps = (ps ++ [(k, v)])%list.
Proof. unfold assign. intros -> ->. reflexivity. Qed.

Lemma put_prop_new (k : string) (v : value) (ps : list (string * value)) :
  ~ In k (map fst ps) -> plain_key k ->
  put_prop (VObj ps) k v = Normal (VObj (ps ++ [(k, v)])).
Proof.
  intros Hin [Hi Hh]. cbn [put_prop].
  rewrite (lookup_None _ _ Hin), Hh, assign_new; auto using lookup_None.
Qed.

Lemma forEach_add_row (rows : list NodeRow.t) :
  forall acc : list (string * value),
    NoDup (map fst acc ++ map fst (kept rows)) ->
    Forall plain_key (map fst (kept rows)) ->
    fold_left add_row rows (Normal (VObj acc))
    = Normal (VObj (acc ++ kept rows)).
Proof.
  induction rows as [|r rows IH]; intros acc Hnd Hp.
  - cbn [fold_left kept flat_map]. rewrite app_nil_r. reflexivity.
  - cbn [fold_left]. unfold kept in *. cbn [flat_map] in *.
    unfold add_row at 2.
    destruct (is_container (NodeRow.type r)); cbn [negb app] in *.
    + apply IH; assumption.
    + destruct (truthy_key r) as [k|]; cbn [app map fst] in *.
      * inversion Hp as [|? ? Hk Hp']; subst.
        rewrite put_prop_new.
        -- rewrite IH.
           ++ rewrite <- app_assoc. reflexivity.
           ++ rewrite map_app, <- app_assoc. exact Hnd.
           ++ exact Hp'.
        -- apply NoDup_remove_2 in Hnd. intros Hin. apply Hnd.
           apply in_or_app. left. exact Hin.
        -- exact Hk.
      * apply IH; assumption.
Qed.

(** C7, as amended.  The projection of no row is [{}]; the projection of
    a single row whose key is absent or empty is the string conversion of
    its value; otherwise it is the pretty-printed object of the rows that
    are not containers and have a non-empty key, in the order of the rows,
    when these keys are distinct and plain. *)
Theorem normalizeNodeData_projection (rows : list NodeRow.t) :
  NoDup (map fst (kept rows)) ->
  Forall plain_key (map fst (kept rows)) ->
  normalizeNodeData rows = Normal (projection rows).
Proof.
  intros Hnd Hp. unfold normalizeNodeData, projection.
  destruct rows as [|row0 others]; [reflexivity|].
  rewrite (forEach_add_row (row0 :: others) []) by assumption.
  cbn [app]. destruct others, (truthy_key row0); reflexivity.
Qed.

End ProjectorFacts.

(* ------------------------------------------------------------------ *)
(** ** Saving, cancelling and the runs of the component *)

Section HandlerFacts.
Context {host : Host}.

Lemma node_path_with_ui (f : component -> component) (w : world) :
  node_path (with_ui f w) = node_path w.
Proof. reflexivity. Qed.

Lemma node_text_with_ui (f : component -> component) (w : world) :
  node_text (with_ui f w) = node_text w.
Proof. reflexivity. Qed.

Ltac reduce :=
  cbv beta iota;
  rewrite ?node_path_with_ui, ?node_text_with_ui;
  cbn [ui json editValue displayContent error isEditing with_ui
       selectedNode contents closed fst snd].

Ltac run_handler :=
  unfold handleSave, save_body, handleCancel, handleClose, reset, normalized,
    setError, setIsEditing, setDisplayContent, setEditValue, setContents,
    onClose;
  unfold try_catch, bind, parse, gets, modify, call, throw, lift, pure;
  reduce.

Ltac use H := rewrite H; reduce.

Lemma handleSave_failure (w : world) (msg : string) :
  save_failure w msg -> handleSave w = Done tt (refused w msg).
Proof.
  intros [m H | parsed m H1 H2 | parsed root seg rest r root' H1 H2 H3 H4 H5
         | parsed root seg rest e root' H1 H2 H3 H4]; run_handler.
  - use H. reflexivity.
  - use H1. use H2. reflexivity.
  - use H1. use H2. use H3. use H4. use H5.
    reflexivity.
  - use H1. use H2. use H3. use H4. reflexivity.
Qed.

Lemma handleSave_success (w : world) (parsed doc : value) :
  save_success w parsed doc -> handleSave w = Done tt (saved w parsed doc).
Proof.
  intros [p root H1 H2 [H3|H3] | p root seg rest r root' H1 H2 H3 H4 H5];
    run_handler; use H1; use H2; use H3.
  - reflexivity.
  - reflexivity.
  - use H4. use H5. reflexivity.
Qed.

Lemma handleSave_cases (w : world) :
  handleSave w = Beyond \/
  (exists msg, save_failure w msg) \/
  (exists parsed doc, save_success w parsed doc).
Proof.
  destruct (JSON_parse (editValue (ui w))) as [parsed|msg] eqn:H1.
  2:{ right. left. exists msg. apply edit_text_invalid. exact H1. }
  destruct (JSON_parse (json w)) as [root|msg] eqn:H2.
  2:{ right. left. exists msg. eapply document_invalid; eassumption. }
  destruct (node_path w) as [[|seg rest]|] eqn:H3.
  - right. right. exists parsed, parsed. eapply root_replaced; eauto.
  - destruct (setValueAtPath root (Some (seg :: rest)) parsed)
      as [r root'|e root'|] eqn:H4.
    + destruct (truthy r) eqn:H5.
      * right. right. exists parsed, root'. eapply subtree_replaced; eauto.
      * right. left. eexists. eapply mutation_refused; eauto.
    + right. left. eexists. eapply mutation_threw; eauto.
    + left. run_handler.
      use H1. use H2. use H3. use H4. reflexivity.
  - right. right. exists parsed, parsed. eapply root_replaced; eauto.
Qed.


(** C5.  Successful save: when the edited text parses and the mutation at
    the path of the node succeeds, [handleSave] calls [setContents] exactly
    once, with the serialized new document, sets [isEditing] to [false]
    without closing the modal, sets [displayContent] to the pretty-printed
    parsed value, and leaves [error] null. *)
Theorem save_commits_once (w : world) (parsed doc : value) :
  save_success w parsed doc ->
  exists w',
    handleSave w = Done tt w' /\
    contents w' = (contents w ++ [JSON_stringify doc])%list /\
    isEditing (ui w') = false /\
    displayContent (ui w') = JSON_stringify parsed /\
    error (ui w') = None /\
    editValue (ui w') = editValue (ui w) /\
    closed w' = closed w.
Proof.
  intros H. exists (saved w parsed doc).
  split; [apply handleSave_success; exact H|]. repeat split.
Qed.

(** C6.  Failed parse: when the edited text is not valid JSON, [handleSave]
    leaves the component editing, sets [error] to the message of the
    parser, and does not call [setContents]. *)
Theorem save_invalid_text (w : world) (msg : string) :
  isEditing (ui w) = true ->
  JSON_parse (editValue (ui w)) = inr msg ->
  exists w',
    handleSave w = Done tt w' /\
    isEditing (ui w') = true /\
    error (ui w') = Some msg /\
    contents w' = contents w.
Proof.
  intros He H. exists (refused w msg).
  split; [apply handleSave_failure, edit_text_invalid; exact H|].
  repeat split. exact He.
Qed.

(** C10.  Frame of a failed save: when a save fails, whether the text does
    not parse or the mutation fails, [editValue], [displayContent] and
    [isEditing] keep their values, and so does everything outside the
    component; only [error] changes, to the message of the failure. *)
Theorem failed_save_changes_only_error (w : world) (msg : string) :
  save_failure w msg ->
  exists w',
    handleSave w = Done tt w' /\
    editValue (ui w') = editValue (ui w) /\
    displayContent (ui w') = displayContent (ui w) /\
    isEditing (ui w') = isEditing (ui w) /\
    error (ui w') = Some msg /\
    selectedNode w' = selectedNode w /\
    json w' = json w /\
    contents w' = contents w /\
    closed w' = closed w.
Proof.
  intros H. exists (refused w msg).
  split; [apply handleSave_failure; exact H|]. repeat split.
Qed.

(** C2, as amended.  The store is left alone by a failed mutation: the
    mutator works on the document [handleSave] has just parsed, and when it
    returns [false] or throws, [handleSave] does not call [setContents] and
    the text of the store is what it was. *)
Theorem failed_mutation_leaves_store (w : world) (parsed root : value)
  (seg : segment) (rest : list segment) :
  JSON_parse (editValue (ui w)) = inl parsed ->
  JSON_parse (json w) = inl root ->
  node_path w = Some (seg :: rest) ->
  failed (setValueAtPath root (Some (seg :: rest)) parsed) = true ->
  exists w',
    handleSave w = Done tt w' /\
    contents w' = contents w /\
    json w' = json w.
Proof.
  intros H1 H2 H3 Hf.
  destruct (setValueAtPath root (Some (seg :: rest)) parsed)
    as [r root'|e root'|] eqn:H4; cbn [failed] in Hf; [| |discriminate].
  - apply negb_true_iff in Hf. eexists. split.
    + apply handleSave_failure. eapply mutation_refused; eassumption.
    + split; reflexivity.
  - eexists. split.
    + apply handleSave_failure. eapply mutation_threw; eassumption.
    + split; reflexivity.
Qed.

Lemma exec_snoc (w : world) (evs : list event) (e : event) :
  exec w (evs ++ [e]) =
  match exec w evs with
  | Some w' => step w' e
  | None => None
  end.
Proof.
  revert w. induction evs as [|e' evs IH]; intros w; cbn [app exec].
  - destruct (step w e); reflexivity.
  - destruct (step w e'); [apply IH | reflexivity].
Qed.

Lemma mount_error (nd : option NodeData.t) (doc : string) (w : world) :
  mount nd doc = Some w -> error (ui w) = None.
Proof.
  unfold mount. destruct (normalizeNodeData _); try discriminate.
  intros H. injection H as <-. reflexivity.
Qed.

(** Where the error shown after a step comes from: the save that just
    failed, or the state before the step. *)
Lemma step_error (w w' : world) (e : event) (msg : string) :
  step w e = Some w' ->
  error (ui w') = Some msg ->
  (e = ClickSave /\ save_failure w msg /\ isEditing (ui w') = true) \/
  (e <> ClickSave /\ error (ui w) = Some msg /\
   (isEditing (ui w) = true -> isEditing (ui w') = true)).
Proof.
  unfold step. destruct (enabled w e) eqn:En; [|discriminate].
  destruct e; cbn [handler enabled] in *.
  - (* ClickEdit *)
    run_handler. intros H. injection H as <-. cbn. intros He.
    right. repeat split; [discriminate | exact He].
  - (* Change *)
    run_handler. intros H. injection H as <-. cbn. intros He.
    right. repeat split; [discriminate | exact He | auto].
  - (* ClickSave *)
    destruct (handleSave_cases w) as [Hb | [[m Hf] | (p & d & Hs)]].
    + rewrite Hb. discriminate.
    + rewrite (handleSave_failure _ _ Hf). intros H. injection H as <-.
      cbn. intros He. injection He as <-. left. auto.
    + rewrite (handleSave_success _ _ _ Hs). intros H. injection H as <-.
      cbn. discriminate.
  - (* ClickCancel *)
    run_handler. destruct (normalizeNodeData (node_text w)); try discriminate.
    reduce. intros H. injection H as <-. cbn. discriminate.
  - (* RequestClose *)
    run_handler. destruct (isEditing (ui w)) eqn:Ed.
    + run_handler. destruct (normalizeNodeData (node_text w));
        try discriminate.
      reduce. intros H. injection H as <-. cbn. discriminate.
    + reduce. intros H. injection H as <-. cbn. intros He.
      right. repeat split; [discriminate | exact He | discriminate].
  - (* Select *)
    run_handler.
    destruct (normalizeNodeData _); try discriminate.
    reduce. intros H. injection H as <-. cbn. discriminate.
  - (* JsonChanged *)
    run_handler. intros H. injection H as <-. cbn. intros He.
    right. repeat split; [discriminate | exact He | auto].
Qed.

Lemma last_save_failed_snoc (w0 : world) (evs : list event) (e : event)
  (msg : string) :
  e <> ClickSave ->
  last_save_failed w0 evs msg -> last_save_failed w0 (evs ++ [e]) msg.
Proof.
  intros Hne (pre & post & w & -> & Hpost & Hpre & Hf).
  exists pre, (post ++ [e])%list, w. repeat split; try assumption.
  - rewrite <- app_assoc. reflexivity.
  - intros Hin. apply in_app_or in Hin as [Hin | [Hin | []]]; auto.
Qed.

(** C9.  In every state reached from the mounted component by clicks on
    Edit, Save and Cancel, changes of the text, requests to close, changes
    of the selected node and changes of the store, [error] is non-null only
    while [isEditing] is true and the last save failed, with that
    message. *)
Theorem error_only_after_failed_save (nd : option NodeData.t) (doc : string)
  (w0 : world) (evs : list event) (w : world) (msg : string) :
  mount nd doc = Some w0 ->
  exec w0 evs = Some w ->
  error (ui w) = Some msg ->
  isEditing (ui w) = true /\ last_save_failed w0 evs msg.
Proof.
  intros Hm. revert w msg.
  induction evs as [|e evs IH] using rev_ind; intros w msg Hx He.
  - cbn [exec] in Hx. injection Hx as <-.
    rewrite (mount_error _ _ _ Hm) in He. discriminate.
  - rewrite exec_snoc in Hx.
    destruct (exec w0 evs) as [w1|] eqn:E1; [|discriminate].
    destruct (step_error _ _ _ _ Hx He) as [(-> & Hf & Hed) | (Hne & He1 & Hed)].
    + split; [exact Hed|]. exists evs, [], w1. repeat split; auto.
    + destruct (IH w1 msg eq_refl He1) as [Hed1 Hl].
      split; [auto | apply last_save_failed_snoc; assumption].
Qed.

Lemma handleCancel_resets (w : world) (n : string) :
  normalizeNodeData (node_text w) = Normal n ->
  handleCancel w
  = Done tt (with_ui (fun c => mkComponent n (displayContent c) None false) w).
Proof. intros H. run_handler. rewrite H. reflexivity. Qed.

Lemma mount_view (nd : option NodeData.t) (doc : string) (w : world) :
  mount nd doc = Some w -> view_is_projection w.
Proof.
  unfold mount, view_is_projection, node_text.
  destruct nd as [n|]; cbn [selectedNode].
  - destruct (normalizeNodeData (NodeData.text n)) eqn:E; try discriminate.
    intros H. injection H as <-. exact E.
  - destruct (normalizeNodeData []) eqn:E; try discriminate.
    intros H. injection H as <-. exact E.
Qed.

(** Every step but a save keeps the displayed text in line with the rows. *)
Lemma step_keeps_view (w w' : world) (e : event) :
  e <> ClickSave ->
  step w e = Some w' ->
  view_is_projection w -> view_is_projection w'.
Proof.
  unfold step, view_is_projection. intros Hne Hs Hv. revert Hs.
  destruct (enabled w e); [|discriminate].
  destruct e; cbn [handler]; try congruence; run_handler.
  - intros H. injection H as <-. exact Hv.
  - intros H. injection H as <-. exact Hv.
  - destruct (normalizeNodeData (node_text w)) eqn:E; try discriminate.
    reduce. intros H. injection H as <-. exact (eq_trans E Hv).
  - destruct (isEditing (ui w)).
    + run_handler. destruct (normalizeNodeData (node_text w)) eqn:E;
        try discriminate.
      reduce. intros H. injection H as <-. exact (eq_trans E Hv).
    + reduce. intros H. injection H as <-. exact Hv.
  - set (w1 := mkWorld nd (ui w) (json w) (contents w) (closed w)).
    destruct (normalizeNodeData (node_text w1)) eqn:E; try discriminate.
    reduce. intros H. injection H as <-. exact E.
  - intros H. injection H as <-. exact Hv.
Qed.

Lemma exec_keeps_view (evs : list event) :
  forall w w' : world,
    ~ In ClickSave evs ->
    exec w evs = Some w' ->
    view_is_projection w -> view_is_projection w'.
Proof.
  induction evs as [|e evs IH]; intros w w' Hn; cbn [exec].
  - intros H. injection H as <-. auto.
  - destruct (step w e) as [w1|] eqn:E; [|discriminate].
    intros Hx Hv. apply (IH w1 w'); auto.
    + intros Hin. apply Hn. right. exact Hin.
    + apply (step_keeps_view w w1 e); auto.
      intros ->. apply Hn. left. reflexivity.
Qed.

(** X18.  As long as no save was attempted since the component was
    mounted, cancelling restores the edited text to the displayed text,
    clears the error and stops the edit. *)
Lemma cancel_before_any_save (nd : option NodeData.t) (doc : string)
  (w0 w w' : world) (evs : list event) :
  mount nd doc = Some w0 ->
  ~ In ClickSave evs ->
  exec w0 evs = Some w ->
  step w ClickCancel = Some w' ->
  editValue (ui w') = displayContent (ui w') /\
  displayContent (ui w') = displayContent (ui w) /\
  error (ui w') = None /\
  isEditing (ui w') = false.
Proof.
  intros Hm Hn Hx Hs.
  assert (Hv : view_is_projection w)
    by (eapply exec_keeps_view; eauto using mount_view).
  unfold step in Hs. destruct (enabled w ClickCancel); [|discriminate].
  cbn [handler] in Hs. rewrite (handleCancel_resets _ _ Hv) in Hs.
  injection Hs as <-. repeat split.
Qed.

End HandlerFacts.

(* ------------------------------------------------------------------ *)
(** ** The properties on the sample documents, with the reference host *)

Section Closed.
Import Samples.
#[local] Existing Instance Reference.host.

(** C1 fails for an array under the cursor: with [{a: [1]}] and the path
    [a], [b] the cursor at the string segment [b] is the array, and the
    call does not fail: it returns [true] after setting a property named
    [b] on the array. *)
Lemma array_cursor_accepts_key :
  getAtPath a_list [Key "a"] = Some (VArr [number 1] []) /\
  setValueAtPath a_list (Some [Key "a"; Key "b"]) (VNum 2)
  = Done (RetBool true) (VObj [("a", VArr [number 1] [("b", VNum 2)])]) /\
  failed (setValueAtPath a_list (Some [Key "a"; Key "b"]) (VNum 2)) = false.
Proof. repeat split. Qed.

(** [setAtPath({a:1}, ["a","b"], 2)] fails. *)
Lemma setValueAtPath_scalar_at_key_witness :
  exists e,
    setValueAtPath a_one (Some [Key "a"; Key "b"]) (VNum 2) = Raised e a_one /\
    name e = TypeError.
Proof.
  apply (setValueAtPath_scalar_at_key a_one [Key "a"] "b" [] (VNum 2) (VNum 1));
    reflexivity.
Defined.

(** C2 fails for the document the caller passed in: on [{}] with the path
    [a], [0] the walk creates [a: {}], then returns [false] since that
    object is not an array; the created object stays. *)
Lemma failed_walk_keeps_created_object :
  setValueAtPath (VObj []) (Some [Key "a"; Index 0]) (VNum 1)
  = Done (RetBool false) (VObj [("a", VObj [])]) /\
  VObj [("a", VObj [])] <> VObj [].
Proof. split; [reflexivity | discriminate]. Qed.

(** The same failed mutation, run by a save over the store text [{}]. *)
Lemma failed_mutation_leaves_store_witness :
  exists w',
    handleSave (editing element_node "{}" "1") = Done tt w' /\
    contents w' = [] /\
    json w' = "{}".
Proof.
  apply (failed_mutation_leaves_store (editing element_node "{}" "1")
           (VNum 1) (VObj []) (Key "a") [Index 0%N]);
    vm_compute; reflexivity.
Defined.

(** C3 fails: index [5] on the array [[1, 2, 3]] of length [3] is
    accepted, and the array is extended with two holes. *)
Lemma index_beyond_length_extends :
  setValueAtPath a_triple (Some [Key "a"; Index 5]) (VNum 9)
  = Done (RetBool true)
      (VObj [("a", VArr [number 1; number 2; number 3; None; None; number 9] [])])
  /\
  failed (setValueAtPath a_triple (Some [Key "a"; Index 5]) (VNum 9)) = false.
Proof. split; reflexivity. Qed.

(** Index [5] on [{a: [1, 2, 3]}]. *)
Lemma setValueAtPath_any_index_witness :
  exists doc' es',
    setValueAtPath a_triple (Some [Key "a"; Index 5]) (VNum 9)
    = Done (RetBool true) doc' /\
    getAtPath doc' [Key "a"] = Some (VArr es' []) /\
    read_index es' 5 = Some (VNum 9) /\
    List.length es' = 6 /\
    (forall m, m < 3 -> m <> 5 ->
               nth_error es' m = nth_error [number 1; number 2; number 3] m) /\
    (forall m, 3 <= m -> m < 5 -> nth_error es' m = Some None).
Proof.
  apply (setValueAtPath_any_index a_triple [Key "a"] 5 (VNum 9)
           [number 1; number 2; number 3] []);
    reflexivity.
Defined.

(** [setAtPath({a:{b:1}}, ["a","b"], 2)] and back. *)
Lemma setValueAtPath_roundtrip_witness :
  exists doc',
    returned_document (setValueAtPath a_b_one (Some [Key "a"; Key "b"]) (VNum 2))
    = Some doc' /\
    getAtPath doc' [Key "a"; Key "b"] = Some (VNum 2).
Proof.
  apply (setValueAtPath_roundtrip a_b_one [Key "a"; Key "b"] (VNum 2)).
  reflexivity.
Defined.


(** Saving [{"a":2}] on the root node of [{"a":1}]. *)
Lemma save_commits_once_witness :
  exists w',
    handleSave (editing root_node (a_text "1") (a_text "2")) = Done tt w' /\
    contents w' = [JSON_stringify (VObj [("a", VNum 2)])] /\
    isEditing (ui w') = false /\
    displayContent (ui w') = JSON_stringify (VObj [("a", VNum 2)]) /\
    error (ui w') = None /\
    editValue (ui w') = a_text "2" /\
    closed w' = 0.
Proof.
  apply (save_commits_once (editing root_node (a_text "1") (a_text "2"))
           (VObj [("a", VNum 2)]) (VObj [("a", VNum 2)])).
  apply (root_replaced _ (VObj [("a", VNum 2)]) (VObj [("a", VNum 1)])).
  - vm_compute. reflexivity.
  - vm_compute. reflexivity.
  - right. reflexivity.
Defined.

(** Saving the text [draft]. *)
Lemma save_invalid_text_witness :
  exists w',
    handleSave (editing root_node (a_text "1") "draft") = Done tt w' /\
    isEditing (ui w') = true /\
    error (ui w') = Some "Unexpected token in JSON" /\
    contents w' = [].
Proof.
  apply (save_invalid_text (editing root_node (a_text "1") "draft")
           "Unexpected token in JSON").
  - reflexivity.
  - vm_compute. reflexivity.
Defined.

(** C7 fails on the order of the keys: the rows [b], [1] project to an
    object whose first key is [1], since own property keys that are array
    indices come first. *)
Lemma index_key_comes_first :
  normalizeNodeData b_then_1
  = Normal (JSON_stringify (VObj [("1", VNum 2); ("b", VNum 1)])) /\
  specified_projection b_then_1
  = JSON_stringify (VObj [("b", VNum 1); ("1", VNum 2)]) /\
  normalizeNodeData b_then_1 <> Normal (specified_projection b_then_1).
Proof.
  split; [reflexivity | split; [reflexivity|]].
  vm_compute. discriminate.
Qed.

(** The rows [a], [b] and the container row [c]. *)
Lemma normalizeNodeData_projection_witness :
  normalizeNodeData a_then_b
  = Normal (JSON_stringify (VObj [("a", VNum 1); ("b", VStr "x")])).
Proof.
  apply (normalizeNodeData_projection a_then_b).
  - change (NoDup ["a"; "b"]).
    repeat constructor; simpl; intuition discriminate.
  - change (Forall plain_key ["a"; "b"]).
    repeat constructor; vm_compute; reflexivity.
Defined.

(** C8 fails after a successful save.  On the root node of [{"a":1}] the
    user saves [{"a":2}], edits again and cancels: [handleCancel] sets
    [editValue] to the projection of the rows of the node, which still show
    [a: 1], while [displayContent] shows the saved [a: 2]. *)
Theorem cancel_after_save_restores_old_projection :
  exists w0 w,
    mount (Some root_node) (a_text "1") = Some w0 /\
    exec w0 save_then_cancel = Some w /\
    isEditing (ui w) = false /\
    error (ui w) = None /\
    displayContent (ui w) = JSON_stringify (VObj [("a", VNum 2)]) /\
    editValue (ui w) = JSON_stringify (VObj [("a", VNum 1)]) /\
    editValue (ui w) <> displayContent (ui w).
Proof.
  eexists. eexists.
  split; [vm_compute; reflexivity|].
  split; [vm_compute; reflexivity|].
  repeat split. vm_compute. discriminate.
Qed.

(** The run Edit, type [draft], Save from the mounted root node. *)
Lemma error_only_after_failed_save_witness :
  isEditing
    (ui (refused (editing root_node (a_text "1") "draft")
           "Unexpected token in JSON")) = true /\
  last_save_failed
    (mkWorld (Some root_node)
       (mkComponent (JSON_stringify a_one) (JSON_stringify a_one) None false)
       (a_text "1") [] 0)
    save_draft "Unexpected token in JSON".
Proof.
  apply (error_only_after_failed_save (Some root_node) (a_text "1") _
           save_draft
           (refused (mkWorld (Some root_node)
                       (mkComponent "draft" (JSON_stringify a_one) None true)
                       (a_text "1") [] 0)
              "Unexpected token in JSON")
           "Unexpected token in JSON").
  - vm_compute. reflexivity.
  - vm_compute. reflexivity.
  - reflexivity.
Defined.

(** A save whose mutation returns [false]. *)
Lemma failed_save_changes_only_error_witness :
  exists w',
    handleSave (editing element_node "{}" "1") = Done tt w' /\
    editValue (ui w') = "1" /\
    displayContent (ui w') = "1" /\
    isEditing (ui w') = true /\
    error (ui w') = Some "Failed to update value at path" /\
    selectedNode w' = Some element_node /\
    json w' = "{}" /\
    contents w' = [] /\
    closed w' = 0.
Proof.
  apply (failed_save_changes_only_error (editing element_node "{}" "1")
           "Failed to update value at path").
  apply (mutation_refused _ (VNum 1) (VObj []) (Key "a") [Index 0%N]
           (RetBool false) (VObj [("a", VObj [])])); vm_compute; reflexivity.
Defined.

(** The reference host on some texts and names. *)

Example parse_object : JSON_parse (a_text "1") = inl a_one.
Proof. vm_compute. reflexivity. Qed.

Example parse_nested :
  JSON_parse (a_text "[1, 2 ,3]") = inl a_triple /\
  JSON_parse (a_text (a_text " 1 ")) = inl (VObj [("a", a_one)]).
Proof. split; vm_compute; reflexivity. Qed.

Example parse_rejects :
  JSON_parse "draft" = inr "Unexpected token in JSON" /\
  JSON_parse "[1,]" = inr "Unexpected token in JSON" /\
  JSON_parse "01" = inr "Unexpected token in JSON" /\
  JSON_parse "1 2" = inr "Unexpected non-whitespace character after JSON".
Proof. repeat split; vm_compute; reflexivity. Qed.

Example array_index_names :
  array_index_of "0" = Some 0%N /\
  array_index_of "4294967294" = Some 4294967294%N /\
  array_index_of "4294967295" = None /\
  array_index_of "01" = None /\
  array_index_of "a" = None /\
  array_index_of EmptyString = None.
Proof. repeat split; vm_compute; reflexivity. Qed.

(** The examples of the specification. *)

Example replace_root :
  returned_document
    (setValueAtPath (VObj []) (Some []) (VObj [("x", VNum 1)]))
  = Some (VObj [("x", VNum 1)]).
Proof. reflexivity. Qed.

Example replace_member :
  setValueAtPath a_b_one (Some [Key "a"; Key "b"]) (VNum 2)
  = Done (RetBool true) (VObj [("a", VObj [("b", VNum 2)])]).
Proof. reflexivity. Qed.

Example replace_element :
  setValueAtPath a_triple (Some [Key "a"; Index 1]) (VNum 9)
  = Done (RetBool true)
      (VObj [("a", VArr [number 1; number 9; number 3] [])]).
Proof. reflexivity. Qed.

Example create_member :
  setValueAtPath (VObj []) (Some [Key "a"; Key "b"]) (VNum 2)
  = Done (RetBool true) (VObj [("a", VObj [("b", VNum 2)])]).
Proof. reflexivity. Qed.

Example project_nothing : normalizeNodeData [] = Normal "{}".
Proof. reflexivity. Qed.

Example project_number :
  normalizeNodeData [NodeRow.mk None (SNum 5) TNumber] = Normal "5".
Proof. reflexivity. Qed.

Example project_without_containers :
  normalizeNodeData a_then_b
  = Normal ("{" ++ newline
            ++ "  " ++ quote ++ "a" ++ quote ++ ": 1," ++ newline
            ++ "  " ++ quote ++ "b" ++ quote ++ ": " ++ quote ++ "x" ++ quote
            ++ newline ++ "}").
Proof. reflexivity. Qed.

(** A single row without a key is rendered by a template literal: a
    string value comes out as its characters, without quotes. *)
Example bare_string_is_not_quoted :
  normalizeNodeData [NodeRow.mk None (SStr "hello") TString] = Normal "hello" /\
  specified_projection [NodeRow.mk None (SStr "hello") TString]
  = quote ++ "hello" ++ quote.
Proof. split; reflexivity. Qed.

(** A row whose key is the empty string counts as a row without a key. *)
Example empty_key_is_no_key :
  normalizeNodeData [NodeRow.mk (Some EmptyString) (SNum 1) TNumber]
  = Normal "1" /\
  normalizeNodeData
    [NodeRow.mk (Some EmptyString) (SNum 1) TNumber; row "a" (SNum 2) TNumber]
  = Normal (JSON_stringify (VObj [("a", VNum 2)])).
Proof. split; reflexivity. Qed.

End Closed.

(* ------------------------------------------------------------------ *)
(** ** The text of a path *)

Lemma append_assoc (a b c : string) : (a ++ b) ++ c = a ++ (b ++ c).
Proof. induction a as [|x a IH]; simpl; [reflexivity | rewrite IH; reflexivity]. Qed.

Lemma append_empty_r (a : string) : a ++ EmptyString = a.
Proof. induction a as [|x a IH]; simpl; [reflexivity | rewrite IH; reflexivity]. Qed.

Lemma append_cancel_l (a x y : string) : a ++ x = a ++ y -> x = y.
Proof.
  induction a as [|c a IH]; simpl; intros H; [exact H|].
  injection H as H. exact (IH H).
Qed.

(** Two texts that agree up to a character neither prefix holds have the
    same prefix and the same rest. *)
Lemma split_at_first (c : ascii) (a b x y : string) :
  free_of c a = true -> free_of c b = true ->
  a ++ String c x = b ++ String c y -> a = b /\ x = y.
Proof.
  revert b. induction a as [|p a IH]; intros [|q b]; simpl; intros Ha Hb H.
  - injection H as ->. auto.
  - injection H as <- _. rewrite Ascii.eqb_refl in Hb. discriminate.
  - injection H as -> _. rewrite Ascii.eqb_refl in Ha. discriminate.
  - injection H as -> H.
    apply andb_prop in Ha as [_ Ha]. apply andb_prop in Hb as [_ Hb].
    destruct (IH b Ha Hb H) as [-> ->]. auto.
Qed.

Lemma digits_of_uint (d : Decimal.uint) : digits (NilEmpty.string_of_uint d) = true.
Proof. induction d; simpl; auto. Qed.

Lemma digits_string_of_N (n : N) : digits (string_of_N n) = true.
Proof.
  unfold string_of_N, NilZero.string_of_uint.
  destruct (N.to_uint n); try reflexivity; apply digits_of_uint.
Qed.

Lemma digits_free_of (c : ascii) (s : string) :
  digit c = false -> digits s = true -> free_of c s = true.
Proof.
  intros Hc. induction s as [|a s IH]; simpl; [reflexivity|].
  intros H. apply andb_prop in H as [Ha Hs]. rewrite IH by assumption.
  destruct (Ascii.eqb_spec a c) as [->|]; [congruence | reflexivity].
Qed.

Lemma string_of_N_inj (n m : N) : string_of_N n = string_of_N m -> n = m.
Proof.
  unfold string_of_N. intros H. apply DecimalN.Unsigned.to_uint_inj.
  assert (Hn : forall k, N.to_uint k <> Decimal.Nil).
  { intros [|p]; [discriminate | apply DecimalPos.Unsigned.to_uint_nonnil]. }
  apply (f_equal NilZero.uint_of_string) in H.
  rewrite !NilZero.usu in H by apply Hn. congruence.
Qed.

Lemma string_of_N_head (n : N) :
  exists c s, string_of_N n = String c s /\ digit c = true.
Proof.
  assert (H := digits_string_of_N n).
  destruct (string_of_N n) as [|c s] eqn:E.
  - exfalso. unfold string_of_N, NilZero.string_of_uint in E.
    destruct (N.to_uint n); discriminate.
  - simpl in H. apply andb_prop in H as [Hc _]. eauto.
Qed.

Lemma bracket_join (p : list segment) :
  forall seg : segment,
    "[" ++ join "][" (map render_segment (seg :: p)) ++ "]"
    = bracketed (seg :: p).
Proof.
  induction p as [|next p IH]; intros seg.
  - reflexivity.
  - specialize (IH next).
    change (bracketed (seg :: next :: p))
      with ("[" ++ render_segment seg ++ "]" ++ bracketed (next :: p)).
    rewrite <- IH.
    change (join "][" (map render_segment (seg :: next :: p)))
      with (render_segment seg ++ "]["
            ++ join "][" (map render_segment (next :: p))).
    rewrite !append_assoc. reflexivity.
Qed.

Lemma jsonPathToString_bracketed (p : list segment) :
  jsonPathToString (Some p) = "$" ++ bracketed p.
Proof.
  destruct p as [|seg p]; [reflexivity|].
  unfold jsonPathToString. rewrite <- bracket_join. reflexivity.
Qed.

Lemma bracketed_app (p q : list segment) :
  bracketed (p ++ q) = bracketed p ++ bracketed q.
Proof.
  induction p as [|seg p IH]; cbn [app bracketed]; [reflexivity|].
  rewrite IH, !append_assoc. reflexivity.
Qed.

(** X1.  The text of a path is the text of any of its prefixes followed by
    the remaining segments, each between brackets: [$] for the empty path,
    a number as it is, a string between quotes. *)
Theorem jsonPathToString_app (p q : list segment) :
  jsonPathToString (Some (p ++ q)%list) = jsonPathToString (Some p) ++ bracketed q.
Proof.
  rewrite !jsonPathToString_bracketed, bracketed_app, append_assoc. reflexivity.
Qed.

Lemma bracketed_inj (p : list segment) :
  forall q : list segment,
    forallb unquoted p = true -> forallb unquoted q = true ->
    bracketed p = bracketed q -> p = q.
Proof.
  induction p as [|s p IH]; intros [|t q] Hp Hq H.
  - reflexivity.
  - discriminate.
  - discriminate.
  - cbn [forallb] in Hp, Hq.
    apply andb_prop in Hp as [Hs Hp]. apply andb_prop in Hq as [Ht Hq].
    cbn [bracketed] in H. apply append_cancel_l in H.
    destruct s as [a|n], t as [b|m]; cbn [render_segment unquoted] in *.
    + unfold quote in H. cbn [append] in H. injection H as H.
      rewrite !append_assoc in H. cbn [append] in H.
      destruct (split_at_first _ _ _ _ _ Hs Ht H) as [-> H'].
      apply (append_cancel_l "]") in H'. rewrite (IH q Hp Hq H'). reflexivity.
    + exfalso. destruct (string_of_N_head m) as (c & r & E & Hc).
      rewrite E in H. unfold quote in H. cbn [append] in H.
      injection H as <- _. discriminate.
    + exfalso. destruct (string_of_N_head n) as (c & r & E & Hc).
      rewrite E in H. unfold quote in H. cbn [append] in H.
      injection H as -> _. discriminate.
    + assert (Hn := digits_free_of "]"%char _ eq_refl (digits_string_of_N n)).
      assert (Hm := digits_free_of "]"%char _ eq_refl (digits_string_of_N m)).
      change ("]" ++ bracketed p) with (String "]"%char (bracketed p)) in H.
      change ("]" ++ bracketed q) with (String "]"%char (bracketed q)) in H.
      destruct (split_at_first _ _ _ _ _ Hn Hm H) as [E H'].
      apply string_of_N_inj in E. subst m.
      rewrite (IH q Hp Hq H'). reflexivity.
Qed.

(** X2.  Two paths whose keys hold no quote and that have the same text
    are the same path. *)
Theorem jsonPathToString_inj (p q : list segment) :
  forallb unquoted p = true ->
  forallb unquoted q = true ->
  jsonPathToString (Some p) = jsonPathToString (Some q) ->
  p = q.
Proof.
  intros Hp Hq H. rewrite !jsonPathToString_bracketed in H.
  apply (append_cancel_l "$") in H. apply bracketed_inj; assumption.
Qed.

(* ------------------------------------------------------------------ *)
(** ** Laws of the path mutator *)

Lemma lookup_replace_other (k k' : string) (v : value)
  (ps : list (string * value)) :
  k' <> k -> lookup k' (replace k v ps) = lookup k' ps.
Proof.
  intros Hne. induction ps as [|[a u] ps IH]; cbn [replace lookup]; auto.
  destruct (String.eqb_spec k a) as [->|Hka]; cbn [lookup].
  - destruct (String.eqb_spec k' a); [contradiction | reflexivity].
  - rewrite IH. reflexivity.
Qed.

Lemma lookup_app_other (k k' : string) (v : value)
  (ps : list (string * value)) :
  k' <> k -> lookup k' (ps ++ [(k, v)]) = lookup k' ps.
Proof.
  intros Hne. induction ps as [|[a u] ps IH]; cbn [app lookup].
  - destruct (String.eqb_spec k' k); [contradiction | reflexivity].
  - rewrite IH. reflexivity.
Qed.

Lemma lookup_insert_index_other (n : N) (k k' : string) (v : value)
  (ps : list (string * value)) :
  k' <> k -> lookup k' (insert_index n k v ps) = lookup k' ps.
Proof.
  intros Hne.
  assert (Hhead : forall l, lookup k' ((k, v) :: l) = lookup k' l).
  { intros l. cbn [lookup].
    destruct (String.eqb_spec k' k); [contradiction | reflexivity]. }
  induction ps as [|[a u] ps IH]; cbn [insert_index].
  - apply Hhead.
  - destruct (array_index_of a) as [m|]; [|apply Hhead].
    destruct (m <? n)%N; [|apply Hhead].
    cbn [lookup]. rewrite IH. reflexivity.
Qed.

Lemma lookup_assign_other (k k' : string) (v : value)
  (ps : list (string * value)) :
  k' <> k -> lookup k' (assign k v ps) = lookup k' ps.
Proof.
  intros Hne. unfold assign. destruct (lookup k ps).
  - apply lookup_replace_other; assumption.
  - destruct (array_index_of k).
    + apply lookup_insert_index_other; assumption.
    + apply lookup_app_other; assumption.
Qed.

Lemma read_write_index_other (es : list (option value)) (n m : nat)
  (v : value) :
  m <> n -> read_index (write_index es n v) m = read_index es m.
Proof.
  unfold read_index. revert es m.
  induction n as [|n IH]; intros [|e es] [|m] Hne; cbn [write_index nth_error];
    try lia; try reflexivity.
  - destruct m; reflexivity.
  - rewrite (IH [] m) by lia. destruct m; reflexivity.
  - apply IH. lia.
Qed.

Lemma replace_replace (k : string) (u v : value) (ps : list (string * value)) :
  replace k v (replace k u ps) = replace k v ps.
Proof.
  induction ps as [|[a w] ps IH]; cbn [replace]; auto.
  destruct (String.eqb k a) eqn:E; cbn [replace]; rewrite E.
  - reflexivity.
  - rewrite IH. reflexivity.
Qed.

Lemma replace_app_new (k : string) (u v : value) (ps : list (string * value)) :
  lookup k ps = None -> replace k v (ps ++ [(k, u)]) = (ps ++ [(k, v)])%list.
Proof.
  induction ps as [|[a w] ps IH]; cbn [app replace lookup].
  - rewrite String.eqb_refl. reflexivity.
  - destruct (String.eqb k a); [discriminate|]. intros H. rewrite IH by exact H.
    reflexivity.
Qed.

Lemma replace_insert_index (n : N) (k : string) (u v : value)
  (ps : list (string * value)) :
  lookup k ps = None ->
  replace k v (insert_index n k u ps) = insert_index n k v ps.
Proof.
  assert (Hhead : forall l, replace k v ((k, u) :: l) = (k, v) :: l).
  { intros l. cbn [replace]. rewrite String.eqb_refl. reflexivity. }
  induction ps as [|[a w] ps IH]; cbn [insert_index lookup].
  - intros _. apply Hhead.
  - destruct (String.eqb k a) eqn:E; [discriminate|]. intros H.
    destruct (array_index_of a) as [m|]; [|apply Hhead].
    destruct (m <? n)%N; [|apply Hhead].
    cbn [replace]. rewrite E, IH by exact H. reflexivity.
Qed.

Lemma replace_assign_new (k : string) (u v : value)
  (ps : list (string * value)) :
  lookup k ps = None -> replace k v (assign k u ps) = assign k v ps.
Proof.
  intros H. unfold assign. rewrite H. destruct (array_index_of k).
  - apply replace_insert_index. exact H.
  - apply replace_app_new. exact H.
Qed.

Lemma assign_assign (k : string) (u v : value) (ps : list (string * value)) :
  assign k v (assign k u ps) = assign k v ps.
Proof.
  unfold assign at 1. rewrite lookup_assign.
  destruct (lookup k ps) eqn:E.
  - unfold assign. rewrite E. apply replace_replace.
  - apply replace_assign_new. exact E.
Qed.

Lemma write_write_index (es : list (option value)) (n : nat) (u v : value) :
  write_index (write_index es n u) n v = write_index es n v.
Proof.
  revert es. induction n as [|n IH]; intros [|e es]; cbn [write_index];
    try reflexivity.
  - rewrite (IH []). reflexivity.
  - rewrite IH. reflexivity.
Qed.

Lemma keys_replace (k : string) (v : value) (ps : list (string * value)) :
  map fst (replace k v ps) = map fst ps.
Proof.
  induction ps as [|[a w] ps IH]; cbn [replace map fst]; auto.
  destruct (String.eqb k a); cbn [map fst]; [reflexivity|].
  rewrite IH. reflexivity.
Qed.

Section MutatorLaws.
Context {host : Host}.

Lemma walk_last_existing (cur old v : value) (seg : segment) :
  child_at cur seg = Some old ->
  walk cur seg [] v = Done (RetBool true) (with_child cur seg v).
Proof.
  destruct seg as [k|n], cur; unfold child_at; try discriminate; intros H.
  - cbn [walk put_prop with_child]. rewrite H. reflexivity.
  - destruct (n <? max_array_index)%N eqn:E; [|discriminate].
    cbn [walk isArray negb put_index with_child]. rewrite E. reflexivity.
Qed.

Lemma walk_plug (rest : list segment) :
  forall (seg : segment) (cur old v : value),
    getAtPath cur (seg :: rest) = Some old ->
    walk cur seg rest v = Done (RetBool true) (plug cur (seg :: rest) v).
Proof.
  induction rest as [|next rest IH]; intros seg cur old v;
    cbn [getAtPath plug]; destruct (child_at cur seg) as [child|] eqn:E;
    try discriminate; intros H.
  - apply (walk_last_existing _ child). exact E.
  - rewrite (walk_descend _ _ _ _ _ _ E), (IH _ _ _ v H). reflexivity.
Qed.

(** X3.  On a path that the document holds, reading by own members and
    elements, [setValueAtPath] always succeeds and hands back the document
    with the value at that path replaced and nothing else touched. *)
Theorem setValueAtPath_existing (doc old v : value) (path : list segment) :
  getAtPath doc path = Some old ->
  returned_document (setValueAtPath doc (Some path) v)
  = Some (plug doc path v).
Proof.
  destruct path as [|seg rest]; intros H; [reflexivity|].
  cbn [setValueAtPath]. rewrite (walk_plug _ _ _ _ v H). reflexivity.
Qed.

(** X4.  Writing at a path the value the document already holds there
    returns [true] and leaves the document as it is. *)
Theorem setValueAtPath_same (doc v : value) (seg : segment)
  (rest : list segment) :
  getAtPath doc (seg :: rest) = Some v ->
  setValueAtPath doc (Some (seg :: rest)) v = Done (RetBool true) doc.
Proof.
  intros H. cbn [setValueAtPath].
  rewrite (walk_plug _ _ _ _ v H), (plug_same _ _ _ H). reflexivity.
Qed.


(** X8.  An integer segment before the last that finds no element, past
    the end of the array or at a hole, makes [setValueAtPath] return
    [false] and leave the document as it was: no element is created on the
    way. *)
Theorem setValueAtPath_no_element (doc v : value) (pre : list segment)
  (es : list (option value)) (xs : list (string * value)) (n : N)
  (next : segment) (rest : list segment) :
  getAtPath doc pre = Some (VArr es xs) ->
  (n < max_array_index)%N ->
  read_index es (N.to_nat n) = None ->
  setValueAtPath doc (Some (pre ++ Index n :: next :: rest)%list) v
  = Done (RetBool false) doc.
Proof.
  intros Hc Hn He. apply N.ltb_lt in Hn.
  rewrite setValueAtPath_walk_from, (walk_along _ _ _ _ _ _ Hc).
  cbn [walk isArray negb get_index]. rewrite Hn, He. cbn [remap].
  rewrite (plug_same _ _ _ Hc). reflexivity.
Qed.

Lemma assign_empty (k : string) (v : value) : assign k v [] = [(k, v)].
Proof. unfold assign. cbn [lookup]. destruct (array_index_of k); reflexivity. Qed.

Lemma walk_create (ks : list string) :
  forall (k : string) (ps : list (string * value)) (v : value),
    lookup k ps = None ->
    Forall (fun k => host_defines KObject k = false) (k :: ks) ->
    walk (VObj ps) (Key k) (map Key ks) v
    = Done (RetBool true) (VObj (assign k (nest ks v) ps)).
Proof.
  induction ks as [|k2 ks IH]; intros k ps v Hk Hh;
    inversion Hh as [|? ? Hhk Hhs]; subst.
  - cbn [map walk put_prop nest]. rewrite Hk, Hhk. reflexivity.
  - cbn [map walk]. unfold vivify. cbn [get_prop put_prop].
    rewrite Hk, Hhk. cbn [get_prop]. rewrite lookup_assign.
    rewrite (IH k2 [] v eq_refl Hhs). unfold within. cbn [remap with_child].
    rewrite replace_assign_new by exact Hk.
    cbn [nest]. rewrite assign_empty. reflexivity.
Qed.

(** X9.  When the first key of a path of keys is missing from an object,
    [setValueAtPath] succeeds and adds one member under that key, whose
    value is the chain of one-member objects down to the value; the other
    members keep their values. *)
Theorem setValueAtPath_creates_chain (k : string) (ks : list string)
  (ps : list (string * value)) (v : value) :
  lookup k ps = None ->
  Forall (fun k => host_defines KObject k = false) (k :: ks) ->
  exists ps',
    setValueAtPath (VObj ps) (Some (map Key (k :: ks))) v
    = Done (RetBool true) (VObj ps') /\
    lookup k ps' = Some (nest ks v) /\
    forall k', k' <> k -> lookup k' ps' = lookup k' ps.
Proof.
  intros Hk Hh. exists (assign k (nest ks v) ps). split; [|split].
  - cbn [map setValueAtPath]. apply walk_create; assumption.
  - apply lookup_assign.
  - intros k' Hne. apply lookup_assign_other. exact Hne.
Qed.


Lemma walk_twice (rest : list segment) :
  forall (seg : segment) (cur v1 v2 : value),
    resolves cur (seg :: rest) = true ->
    exists cur1,
      walk cur seg rest v1 = Done (RetBool true) cur1 /\
      walk cur1 seg rest v2 = walk cur seg rest v2.
Proof.
  induction rest as [|next rest IH]; intros seg cur v1 v2 H.
  - destruct seg as [k|n], cur; cbn [resolves] in H; try discriminate.
    + cbn [walk put_prop]. destruct (lookup k props) as [u|] eqn:E.
      * eexists. split; [reflexivity|].
        cbn [put_prop]. rewrite (lookup_replace _ _ _ _ E), replace_replace.
        reflexivity.
      * apply andb_prop in H as [Hh _]. apply negb_true_iff in Hh.
        rewrite Hh. eexists. split; [reflexivity|].
        cbn [put_prop]. rewrite lookup_assign, replace_assign_new by exact E.
        reflexivity.
    + apply andb_prop in H as [Hn _].
      cbn [walk isArray negb put_index]. rewrite Hn.
      eexists. split; [reflexivity|].
      cbn [put_index]. rewrite Hn, write_write_index. reflexivity.
  - destruct seg as [k|n], cur; cbn [resolves] in H; try discriminate.
    + destruct (lookup k props) as [child|] eqn:E.
      * destruct (IH next child v1 v2 H) as (child1 & Hw & Hs).
        rewrite !(walk_descend (VObj props) child (Key k)) by exact E.
        unfold within. rewrite Hw. cbn [remap with_child].
        eexists. split; [reflexivity|].
        rewrite (walk_descend _ child1 (Key k))
          by (cbn [child_at]; eapply lookup_replace; exact E).
        unfold within. rewrite Hs. apply remap_ext. intros c.
        cbn [with_child]. rewrite replace_replace. reflexivity.
      * apply andb_prop in H as [Hh H]. apply negb_true_iff in Hh.
        destruct (IH next (VObj []) v1 v2 H) as (child1 & Hw & Hs).
        cbn [walk]. unfold vivify. cbn [get_prop put_prop].
        rewrite E, Hh. cbn [get_prop]. rewrite lookup_assign.
        unfold within. rewrite Hw. cbn [remap with_child].
        eexists. split; [reflexivity|].
        cbn [get_prop].
        rewrite (lookup_replace _ _ _ _ (lookup_assign k (VObj []) props)).
        cbn [get_prop].
        rewrite (lookup_replace _ _ _ _ (lookup_assign k (VObj []) props)).
        rewrite Hs. apply remap_ext. intros c.
        cbn [with_child]. rewrite replace_replace. reflexivity.
    + apply andb_prop in H as [Hn H].
      destruct (read_index elems (N.to_nat n)) as [child|] eqn:E;
        [|discriminate].
      destruct (IH next child v1 v2 H) as (child1 & Hw & Hs).
      assert (Hc : child_at (VArr elems named) (Index n) = Some child)
        by (cbn [child_at]; rewrite Hn; exact E).
      rewrite !(walk_descend _ _ _ _ _ _ Hc). unfold within. rewrite Hw.
      cbn [remap]. eexists. split; [reflexivity|].
      rewrite (walk_descend _ child1 (Index n))
        by (apply (child_with_child _ _ child); exact Hc).
      unfold within. rewrite Hs. apply remap_ext. intros c.
      cbn [with_child]. rewrite Hn, write_write_index. reflexivity.
Qed.

(** X5.  The last write wins: on a path that resolves, writing [v1] and
    then [v2] at the same path leaves the document that writing [v2] alone
    leaves. *)
Theorem setValueAtPath_twice (doc v1 v2 : value) (path : list segment) :
  resolves doc path = true ->
  exists doc1,
    returned_document (setValueAtPath doc (Some path) v1) = Some doc1 /\
    returned_document (setValueAtPath doc1 (Some path) v2)
    = returned_document (setValueAtPath doc (Some path) v2).
Proof.
  destruct path as [|seg rest]; intros H.
  - exists v1. split; reflexivity.
  - destruct (walk_twice rest seg doc v1 v2 H) as (doc1 & Hw & Hs).
    exists doc1. cbn [setValueAtPath]. rewrite Hw, Hs. split; reflexivity.
Qed.


Lemma child_with_child_other (cur c : value) (seg s' : segment) :
  s' <> seg -> child_at (with_child cur seg c) s' = child_at cur s'.
Proof.
  intros Hne.
  destruct seg as [k|n], cur; cbn [with_child]; try reflexivity.
  - destruct s' as [k'|m]; cbn [child_at]; [|reflexivity].
    apply lookup_replace_other. congruence.
  - destruct (n <? max_array_index)%N; [|destruct s'; reflexivity].
    destruct s' as [k'|m]; cbn [child_at]; [reflexivity|].
    destruct (m <? max_array_index)%N; [|reflexivity].
    apply read_write_index_other. intros E. apply Hne. f_equal.
    apply N2Nat.inj. exact E.
Qed.

Lemma put_prop_other (cur cur' v : value) (k : string) (s' : segment) :
  put_prop cur k v = Normal cur' ->
  s' <> Key k -> child_at cur' s' = child_at cur s'.
Proof.
  intros H Hne. destruct cur; cbn [put_prop] in H; try discriminate.
  - destruct (exotic_key (VBool b) k); discriminate.
  - destruct (exotic_key (VNum n) k); discriminate.
  - destruct (exotic_key (VStr s) k); discriminate.
  - destruct (host_defines KArray k); [discriminate|]. injection H as <-.
    destruct s'; reflexivity.
  - assert (Hk : forall k', Key k' <> Key k -> k' <> k) by congruence.
    destruct (lookup k props).
    + injection H as <-. destruct s' as [k'|m]; cbn [child_at]; [|reflexivity].
      apply lookup_replace_other. auto.
    + destruct (host_defines KObject k); [discriminate|]. injection H as <-.
      destruct s' as [k'|m]; cbn [child_at]; [|reflexivity].
      apply lookup_assign_other. auto.
Qed.

Lemma vivify_other (cur cur1 : value) (k : string) (s' : segment) :
  vivify cur k = Normal cur1 ->
  s' <> Key k -> child_at cur1 s' = child_at cur s'.
Proof.
  unfold vivify. destruct (get_prop cur k) as [[u|]| |]; try discriminate.
  - intros H. injection H as <-. reflexivity.
  - apply put_prop_other.
Qed.

Lemma put_index_other (es : list (option value)) (xs : list (string * value))
  (cur' v : value) (n : N) (s' : segment) :
  put_index (VArr es xs) n v = Normal cur' ->
  s' <> Index n -> child_at cur' s' = child_at (VArr es xs) s'.
Proof.
  cbn [put_index]. destruct (n <? max_array_index)%N eqn:E.
  - intros H Hne. injection H as <-.
    apply (child_with_child_other (VArr es xs) v (Index n)) in Hne.
    cbn [with_child] in Hne. rewrite E in Hne. exact Hne.
  - intros H Hne. cbn [put_prop] in H.
    destruct (host_defines KArray (string_of_N n)); [discriminate|].
    injection H as <-. destruct s'; reflexivity.
Qed.

Lemma some_inj {A} (a b : A) : Some a = Some b -> a = b.
Proof. congruence. Qed.

Lemma state_of_remap {A S T} (f : S -> T) (o : outcome A S) :
  state_of (remap f o) = option_map f (state_of o).
Proof. destruct o; reflexivity. Qed.

Lemma vivify_cases (cur cur1 : value) (k : string) :
  vivify cur k = Normal cur1 ->
  (exists ps,
     cur = VObj ps /\
     ((exists u, lookup k ps = Some u /\ cur1 = cur) \/
      (lookup k ps = None /\ cur1 = VObj (assign k (VObj []) ps)))) \/
  (exists es xs xs', cur = VArr es xs /\ cur1 = VArr es xs').
Proof.
  unfold vivify. destruct cur; cbn [get_prop put_prop]; try discriminate.
  - destruct (exotic_key (VBool b) k); discriminate.
  - destruct (exotic_key (VNum n) k); discriminate.
  - destruct (exotic_key (VStr s) k); discriminate.
  - intros H. right. destruct (host_defines KArray k); [discriminate|].
    destruct (lookup k named); injection H as <-; eauto.
  - intros H. left. exists props. split; [reflexivity|].
    destruct (lookup k props) as [u|].
    + injection H as <-. eauto.
    + destruct (host_defines KObject k); [discriminate|].
      injection H as <-. auto.
Qed.

(** What a turn of the loop does to the member it goes through: nothing
    that reading can tell, or the member, possibly just created empty,
    becomes what the rest of the walk makes of it. *)
Lemma walk_through (cur cur' v : value) (seg next : segment)
  (rest : list segment) :
  state_of (walk cur seg (next :: rest) v) = Some cur' ->
  child_at cur' seg = child_at cur seg \/
  exists child child',
    child_at cur' seg = Some child' /\
    state_of (walk child next rest v) = Some child' /\
    (child_at cur seg = Some child \/
     (child_at cur seg = None /\ child = VObj [])).
Proof.
  destruct seg as [k|n].
  - cbn [walk]. destruct (vivify cur k) as [cur1| |] eqn:Ev;
      [|intros H; injection H as <-; auto | discriminate].
    destruct (vivify_cases _ _ _ Ev)
      as [(ps & -> & [(u & El & ->) | (El & ->)]) | (es & xs & xs' & -> & ->)].
    + cbn [get_prop]. rewrite El. unfold within. rewrite state_of_remap.
      destruct (state_of (walk u next rest v)) as [child'|] eqn:Es;
        [|discriminate].
      cbn [option_map]. intros H. injection H as <-.
      right. exists u, child'. cbn [child_at with_child].
      rewrite (lookup_replace _ _ _ _ El). auto.
    + cbn [get_prop]. rewrite lookup_assign. unfold within.
      rewrite state_of_remap.
      destruct (state_of (walk (VObj []) next rest v)) as [child'|] eqn:Es;
        [|discriminate].
      cbn [option_map]. intros H. injection H as <-.
      right. exists (VObj []), child'. cbn [child_at with_child].
      rewrite (lookup_replace _ _ _ _ (lookup_assign k (VObj []) ps)). auto.
    + left. destruct (get_prop (VArr es xs') k) as [[child|]| |];
        [| injection H as <-; reflexivity | injection H as <-; reflexivity
         | discriminate].
      unfold within in H. rewrite state_of_remap in H.
      destruct (state_of (walk child next rest v)); [|discriminate].
      cbn [option_map] in H. injection H as <-. reflexivity.
  - cbn [walk]. destruct (isArray cur) eqn:Ea; cbn [negb];
      [|intros H; injection H as <-; auto].
    destruct cur; try discriminate. cbn [get_index].
    destruct (n <? max_array_index)%N eqn:En.
    + destruct (read_index elems (N.to_nat n)) as [child|] eqn:Er;
        [|intros H; injection H as <-; auto].
      unfold within. rewrite state_of_remap.
      destruct (state_of (walk child next rest v)) as [child'|] eqn:Es;
        [|discriminate].
      cbn [option_map]. intros H. injection H as <-.
      right. exists child, child'. cbn [child_at with_child].
      rewrite ?En. cbn [child_at]. rewrite ?En, read_write_index. auto.
    + cbn [get_prop]. destruct (host_defines KArray (string_of_N n));
        [discriminate|].
      destruct (lookup (string_of_N n) named) as [child|];
        [|intros H; injection H as <-; auto].
      unfold within. rewrite state_of_remap.
      destruct (state_of (walk child next rest v)); [|discriminate].
      cbn [option_map]. intros H. injection H as <-.
      left. cbn [with_child]. rewrite ?En. cbn [child_at]. rewrite ?En.
      reflexivity.
Qed.

Lemma walk_beside (cur cur' v : value) (seg s' : segment)
  (rest : list segment) :
  state_of (walk cur seg rest v) = Some cur' ->
  s' <> seg -> child_at cur' s' = child_at cur s'.
Proof.
  intros H Hne. destruct rest as [|next rest].
  - destruct seg as [k|n]; cbn [walk] in H.
    + destruct (put_prop cur k v) eqn:E; cbn [state_of] in H;
        try discriminate; injection H as <-; [|reflexivity].
      eapply put_prop_other; eassumption.
    + destruct (isArray cur) eqn:Ea; cbn [negb] in H;
        [|injection H as <-; reflexivity].
      destruct cur; try discriminate.
      destruct (put_index (VArr elems named) n v) eqn:E; cbn [state_of] in H;
        try discriminate; injection H as <-; [|reflexivity].
      eapply put_index_other; eassumption.
  - destruct seg as [k|n]; cbn [walk] in H.
    + destruct (vivify cur k) as [cur1| |] eqn:Ev;
        [|injection H as <-; reflexivity | discriminate].
      assert (E1 := vivify_other _ _ _ _ Ev Hne).
      destruct (get_prop cur1 k) as [[child|]| |];
        [| injection H as <-; exact E1 | injection H as <-; exact E1
         | discriminate].
      unfold within in H. rewrite state_of_remap in H.
      destruct (state_of (walk child next rest v)); [|discriminate].
      cbn [option_map] in H. apply some_inj in H. subst cur'. rewrite child_with_child_other by exact Hne.
      exact E1.
    + destruct (isArray cur); cbn [negb] in H;
        [|injection H as <-; reflexivity].
      destruct (get_index cur n) as [[child|]| |];
        [| injection H as <-; reflexivity | injection H as <-; reflexivity
         | discriminate].
      unfold within in H. rewrite state_of_remap in H.
      destruct (state_of (walk child next rest v)); [|discriminate].
      cbn [option_map] in H. apply some_inj in H. subst cur'. apply child_with_child_other. exact Hne.
Qed.

Lemma getAtPath_empty_object (path : list segment) :
  path <> [] -> getAtPath (VObj []) path = None.
Proof. destruct path as [|[k|n] rest]; [congruence | reflexivity | reflexivity]. Qed.

Lemma walk_frame (common : list segment) :
  forall (cur cur' v : value) (s s' : segment) (p q : list segment),
    state_of (walk_from cur (common ++ s :: p) v) = Some cur' ->
    s' <> s ->
    getAtPath cur' (common ++ s' :: q) = getAtPath cur (common ++ s' :: q).
Proof.
  induction common as [|x common IH]; intros cur cur' v s s' p q H Hne.
  - cbn [app walk_from] in H. cbn [app getAtPath].
    rewrite (walk_beside _ _ _ _ _ _ H Hne). reflexivity.
  - cbn [app walk_from] in H. cbn [app getAtPath].
    destruct (common ++ s :: p)%list as [|next rest] eqn:Ep;
      [destruct common; discriminate|].
    destruct (walk_through _ _ _ _ _ _ H)
      as [E | (child & child' & E' & Hs & [E | [E ->]])].
    + rewrite E. reflexivity.
    + rewrite E', E. apply (IH child child' v s s' p q); [|exact Hne].
      rewrite Ep. exact Hs.
    + rewrite E', E.
      rewrite (IH (VObj []) child' v s s' p q); [|rewrite Ep; exact Hs|exact Hne].
      apply getAtPath_empty_object. destruct common; discriminate.
Qed.

(** X6.  Nothing off the path changes: whatever [setValueAtPath] does
    (return [true], return [false] or throw), reading a path that leaves
    the walked path at some segment yields what it yielded before. *)
Theorem setValueAtPath_frame (doc doc' v : value) (common p q : list segment)
  (s s' : segment) :
  state_of (setValueAtPath doc (Some (common ++ s :: p)%list) v) = Some doc' ->
  s' <> s ->
  getAtPath doc' (common ++ s' :: q) = getAtPath doc (common ++ s' :: q).
Proof.
  rewrite setValueAtPath_walk_from. apply walk_frame.
Qed.

Lemma keys_assign_old (k : string) (u v : value) (ps : list (string * value)) :
  lookup k ps = Some u -> map fst (assign k v ps) = map fst ps.
Proof. intros H. unfold assign. rewrite H. apply keys_replace. Qed.

Lemma keys_assign_new (k : string) (v : value) (ps : list (string * value)) :
  lookup k ps = None -> array_index_of k = None ->
  map fst (assign k v ps) = (map fst ps ++ [k])%list.
Proof.
  intros H Hi. unfold assign. rewrite H, Hi, map_app. reflexivity.
Qed.

Lemma walk_keys (ps : list (string * value)) (k : string)
  (rest : list segment) (v cur' : value) :
  state_of (walk (VObj ps) (Key k) rest v) = Some cur' ->
  exists ps' u, cur' = VObj ps' /\ map fst ps' = map fst (assign k u ps).
Proof.
  destruct rest as [|next rest]; cbn [walk].
  - cbn [put_prop]. destruct (lookup k ps) as [u|] eqn:E.
    + intros H. injection H as <-. exists (replace k v ps), v. split; auto.
      rewrite keys_replace, (keys_assign_old _ _ _ _ E). reflexivity.
    + destruct (host_defines KObject k); [discriminate|].
      intros H. injection H as <-. eauto.
  - unfold vivify. cbn [get_prop put_prop].
    destruct (lookup k ps) as [u|] eqn:E.
    + cbn [get_prop]. rewrite E. unfold within. rewrite state_of_remap.
      destruct (state_of (walk u next rest v)) as [c|]; [|discriminate].
      intros H. injection H as <-. cbn [with_child].
      exists (replace k c ps), u. split; auto.
      rewrite keys_replace, (keys_assign_old _ _ _ _ E). reflexivity.
    + destruct (host_defines KObject k); [discriminate|].
      cbn [get_prop]. rewrite lookup_assign.
      unfold within. rewrite state_of_remap.
      destruct (state_of (walk (VObj []) next rest v)) as [c|]; [|discriminate].
      intros H. injection H as <-. cbn [with_child].
      exists (replace k c (assign k (VObj []) ps)), (VObj []). split; auto.
      apply keys_replace.
Qed.

(** X10.  The members of the root object keep their order: a call whose
    path starts with a key the object has leaves the list of keys as it
    was, and one whose first key is missing, and is not an array index,
    appends that key, also when the call later fails. *)
Theorem setValueAtPath_keeps_order (ps : list (string * value)) (k : string)
  (rest : list segment) (v doc' : value) :
  state_of (setValueAtPath (VObj ps) (Some (Key k :: rest)) v) = Some doc' ->
  exists ps',
    doc' = VObj ps' /\
    (lookup k ps <> None -> map fst ps' = map fst ps) /\
    (lookup k ps = None -> array_index_of k = None ->
     map fst ps' = (map fst ps ++ [k])%list).
Proof.
  cbn [setValueAtPath]. intros H.
  destruct (walk_keys _ _ _ _ _ H) as (ps' & u & -> & Hk).
  exists ps'. split; [reflexivity|]. split.
  - destruct (lookup k ps) as [w|] eqn:E; [|congruence]. intros _.
    rewrite Hk. eapply keys_assign_old. exact E.
  - intros E Hi. rewrite Hk. apply keys_assign_new; assumption.
Qed.

End MutatorLaws.

(* ------------------------------------------------------------------ *)
(** ** Laws of the projector *)

Lemma lookup_app (k : string) (a b : list (string * value)) :
  lookup k (a ++ b) =
  match lookup k a with
  | Some v => Some v
  | None => lookup k b
  end.
Proof.
  induction a as [|[k' v'] a IH]; cbn [app lookup]; [reflexivity|].
  destruct (String.eqb k k'); [reflexivity | exact IH].
Qed.

Section ProjectorLaws.
Context {host : Host}.

Lemma forEach_exotic (rows : list NodeRow.t) :
  fold_left add_row rows Exotic = Exotic.
Proof. induction rows as [|r rows IH]; cbn [fold_left add_row]; auto. Qed.

(** What a row adds to the object: its member if it is kept. *)
Lemma add_row_kept (ps : list (string * value)) (r : NodeRow.t) :
  add_row (Normal (VObj ps)) r =
  match kept [r] with
  | (k, v) :: _ => put_prop (VObj ps) k v
  | [] => Normal (VObj ps)
  end.
Proof.
  unfold add_row, kept. cbn [flat_map].
  destruct (is_container (NodeRow.type r)); cbn [negb app]; [reflexivity|].
  destruct (truthy_key r); reflexivity.
Qed.

Lemma kept_cons (r : NodeRow.t) (rows : list NodeRow.t) :
  kept (r :: rows) = (kept [r] ++ kept rows)%list.
Proof. unfold kept. cbn [flat_map]. rewrite app_nil_r. reflexivity. Qed.

Lemma kept_one (r : NodeRow.t) :
  kept [r] = [] \/ exists k v, kept [r] = [(k, v)].
Proof.
  unfold kept. cbn [flat_map].
  destruct (is_container (NodeRow.type r)); [auto|].
  destruct (truthy_key r); cbn [app]; eauto.
Qed.

Lemma put_prop_object (ps : list (string * value)) (k : string) (v : value) :
  put_prop (VObj ps) k v = Exotic \/
  put_prop (VObj ps) k v = Normal (VObj (assign k v ps)).
Proof.
  cbn [put_prop]. unfold assign. destruct (lookup k ps); [auto|].
  destruct (host_defines KObject k); auto.
Qed.

Lemma forEach_object (rows : list NodeRow.t) :
  forall ps : list (string * value),
    fold_left add_row rows (Normal (VObj ps)) = Exotic \/
    exists ps', fold_left add_row rows (Normal (VObj ps)) = Normal (VObj ps').
Proof.
  induction rows as [|r rows IH]; intros ps; cbn [fold_left].
  - eauto.
  - rewrite add_row_kept. destruct (kept_one r) as [-> | (k & v & ->)].
    + apply IH.
    + destruct (put_prop_object ps k v) as [-> | ->].
      * left. apply forEach_exotic.
      * apply IH.
Qed.

(** X11.  The projector returns a text for every sequence of rows: it
    never throws. *)
Theorem normalizeNodeData_never_throws (rows : list NodeRow.t) :
  (exists s, normalizeNodeData rows = Normal s) \/
  normalizeNodeData rows = Exotic.
Proof.
  unfold normalizeNodeData. destruct rows as [|row0 others]; [eauto|].
  destruct (forEach_object (row0 :: others) []) as [-> | (ps & ->)];
    destruct others, (truthy_key row0); eauto.
Qed.

Lemma forEach_last_value (rows : list NodeRow.t) :
  forall (ps ps' : list (string * value)) (k : string),
    fold_left add_row rows (Normal (VObj ps)) = Normal (VObj ps') ->
    lookup k ps' =
    match last_value k (kept rows) with
    | Some v => Some v
    | None => lookup k ps
    end.
Proof.
  unfold last_value.
  induction rows as [|r rows IH]; intros ps ps' k; cbn [fold_left].
  - intros H. injection H as <-. reflexivity.
  - rewrite (kept_cons r rows), rev_app_distr, lookup_app, add_row_kept.
    destruct (kept_one r) as [-> | (k0 & v0 & ->)].
    + intros H. rewrite (IH _ _ k H). cbn [rev lookup].
      destruct (lookup k (rev (kept rows))); reflexivity.
    + destruct (put_prop_object ps k0 v0) as [-> | ->].
      * rewrite forEach_exotic. discriminate.
      * intros H. rewrite (IH _ _ k H).
        destruct (lookup k (rev (kept rows))); [reflexivity|].
        cbn [rev app lookup]. destruct (String.eqb_spec k k0) as [->|Hne].
        -- apply lookup_assign.
        -- apply lookup_assign_other. exact Hne.
Qed.

(** When the rows are shown as an object, the text is that of the object
    [forEach] has built. *)
Lemma normalizeNodeData_object (rows : list NodeRow.t) (s : string) :
  single_value rows = false ->
  normalizeNodeData rows = Normal s ->
  exists ps,
    s = JSON_stringify (VObj ps) /\
    fold_left add_row rows (Normal (VObj [])) = Normal (VObj ps).
Proof.
  unfold normalizeNodeData. destruct rows as [|row0 others].
  - intros _ H. injection H as <-. exists []. split; reflexivity.
  - intros Hs.
    destruct (forEach_object (row0 :: others) []) as [E | (ps & E)];
      rewrite E;
      (destruct others as [|row1 others];
        [destruct (truthy_key row0) eqn:Et;
           [|cbn [single_value] in Hs; rewrite Et in Hs; discriminate]|]);
      try discriminate; intros H; injection H as <-; eauto.
Qed.

(** X12.  Among the kept rows that share a key the last one gives the
    value: the text shown is that of an object which maps every key to the
    value of the last kept row with that key. *)
Theorem normalizeNodeData_last_wins (rows : list NodeRow.t) (s : string) :
  single_value rows = false ->
  normalizeNodeData rows = Normal s ->
  exists ps,
    s = JSON_stringify (VObj ps) /\
    forall k, lookup k ps = last_value k (kept rows).
Proof.
  intros Hs H. destruct (normalizeNodeData_object _ _ Hs H) as (ps & -> & E).
  exists ps. split; [reflexivity|]. intros k.
  rewrite (forEach_last_value _ _ _ k E). cbn [lookup].
  destruct (last_value k (kept rows)); reflexivity.
Qed.

(** X13.  When no row is kept (every row is a container or has no
    truthy key) and the rows are not a single value, the projection is
    [{}]. *)
Theorem normalizeNodeData_nothing_kept (rows : list NodeRow.t) :
  single_value rows = false ->
  kept rows = [] ->
  normalizeNodeData rows = Normal "{}".
Proof.
  intros Hs Hk. unfold normalizeNodeData.
  destruct rows as [|row0 others]; [reflexivity|].
  rewrite (forEach_add_row (row0 :: others) []);
    [| rewrite Hk; constructor | rewrite Hk; constructor].
  rewrite Hk.
  destruct others as [|row1 others];
    [destruct (truthy_key row0) eqn:Et;
       [|cbn [single_value] in Hs; rewrite Et in Hs; discriminate]|];
    reflexivity.
Qed.

End ProjectorLaws.

Lemma array_index_of_name (k : string) (n : N) :
  array_index_of k = Some n -> k = string_of_N n.
Proof.
  unfold array_index_of. destruct (NilEmpty.uint_of_string k) as [u|];
    [|discriminate].
  destruct (String.eqb_spec (string_of_N (N.of_uint u)) k) as [E|];
    cbn [andb]; [|discriminate].
  destruct (N.of_uint u <? max_array_index)%N; [|discriminate].
  intros H. injection H as <-. symmetry. exact E.
Qed.

Lemma lookup_In (k : string) (ps : list (string * value)) :
  lookup k ps = None <-> ~ In k (map fst ps).
Proof.
  induction ps as [|[a v] ps IH]; cbn [lookup map fst In].
  - tauto.
  - destruct (String.eqb_spec k a) as [->|Hne].
    + split; [discriminate | tauto].
    + rewrite IH. split; [intros H [E|E]; [congruence | tauto] | tauto].
Qed.

Lemma index_first_weaken (ks : list string) (b b' : N) :
  (b' <= b)%N -> index_first b ks -> index_first b' ks.
Proof.
  destruct ks as [|k ks]; cbn [index_first]; [auto|].
  destruct (array_index_of k); [|auto]. intros Hb [H1 H2]. split; [lia | exact H2].
Qed.

Lemma index_first_snoc (ks : list string) (k : string) :
  forall b : N,
    array_index_of k = None -> index_first b ks -> index_first b (ks ++ [k]).
Proof.
  induction ks as [|a ks IH]; intros b Hk; cbn [app index_first].
  - rewrite Hk. constructor.
  - destruct (array_index_of a).
    + intros [H1 H2]. split; [exact H1 | apply IH; assumption].
    + intros H. apply Forall_app. split; [exact H | repeat constructor; exact Hk].
Qed.

Lemma index_first_insert (n : N) (k : string) (v : value)
  (ps : list (string * value)) :
  forall b : N,
    array_index_of k = Some n -> (b <= n)%N -> ~ In k (map fst ps) ->
    index_first b (map fst ps) ->
    index_first b (map fst (insert_index n k v ps)).
Proof.
  induction ps as [|[a u] ps IH]; intros b Hk Hb Hin; cbn [insert_index map fst].
  - intros _. cbn [index_first]. rewrite Hk. auto.
  - cbn [map fst In] in Hin. cbn [index_first].
    destruct (array_index_of a) as [m|] eqn:Ea.
    + intros [H1 H2]. destruct (N.ltb_spec m n).
      * cbn [map fst index_first]. rewrite Ea. split; [exact H1|].
        apply IH; auto. lia.
      * cbn [map fst index_first]. rewrite Hk, Ea.
        assert (m <> n).
        { intros ->. apply Hin. left.
          rewrite (array_index_of_name _ _ Ea), (array_index_of_name _ _ Hk).
          reflexivity. }
        repeat split; [exact Hb | lia | exact H2].
    + intros H. cbn [map fst index_first]. rewrite Hk, Ea. auto.
Qed.

Lemma insert_index_middle (n : N) (k : string) (v : value)
  (ps : list (string * value)) :
  exists a b,
    ps = (a ++ b)%list /\ insert_index n k v ps = (a ++ (k, v) :: b)%list.
Proof.
  induction ps as [|[a u] ps (x & y & E1 & E2)]; cbn [insert_index].
  - exists [], []. auto.
  - destruct (array_index_of a) as [m|]; [|exists [], ((a, u) :: ps); auto].
    destruct (m <? n)%N; [|exists [], ((a, u) :: ps); auto].
    exists ((a, u) :: x), y. cbn [app]. rewrite E2, <- E1. auto.
Qed.

Lemma keys_assign (k : string) (v : value) (ps : list (string * value)) :
  lookup k ps = None -> Permutation (map fst (assign k v ps)) (k :: map fst ps).
Proof.
  intros H. unfold assign. rewrite H. destruct (array_index_of k) as [n|].
  - destruct (insert_index_middle n k v ps) as (a & b & -> & ->).
    rewrite !map_app. cbn [map fst]. symmetry. apply Permutation_middle.
  - rewrite map_app. cbn [map fst]. symmetry. apply Permutation_cons_append.
Qed.

Lemma host_order_assign (k : string) (v : value) (ps : list (string * value)) :
  host_order ps -> host_order (assign k v ps).
Proof.
  intros [Hn Hi]. destruct (lookup k ps) as [u|] eqn:E.
  - unfold host_order. rewrite (keys_assign_old _ _ _ _ E). auto.
  - split.
    + apply (Permutation_NoDup (l := k :: map fst ps)).
      * symmetry. apply keys_assign. exact E.
      * constructor; [apply lookup_In; exact E | exact Hn].
    + unfold assign. rewrite E. destruct (array_index_of k) as [n|] eqn:Ek.
      * apply index_first_insert; auto; [lia | apply lookup_In; exact E].
      * rewrite map_app. apply index_first_snoc; assumption.
Qed.

Section ProjectorOrder.
Context {host : Host}.

Lemma forEach_host_order (rows : list NodeRow.t) :
  forall ps ps' : list (string * value),
    host_order ps ->
    fold_left add_row rows (Normal (VObj ps)) = Normal (VObj ps') ->
    host_order ps'.
Proof.
  induction rows as [|r rows IH]; intros ps ps' Ho; cbn [fold_left].
  - intros H. injection H as <-. exact Ho.
  - rewrite add_row_kept. destruct (kept_one r) as [-> | (k & v & ->)].
    + apply IH. exact Ho.
    + destruct (put_prop_object ps k v) as [-> | ->].
      * rewrite forEach_exotic. discriminate.
      * apply IH. apply host_order_assign. exact Ho.
Qed.

(** X14.  In the object the projector prints, every kept key occurs
    once, and the keys that name array indices come first, in ascending
    order of the index. *)
Theorem normalizeNodeData_index_keys_first (rows : list NodeRow.t)
  (s : string) :
  single_value rows = false ->
  normalizeNodeData rows = Normal s ->
  exists ps,
    s = JSON_stringify (VObj ps) /\
    NoDup (map fst ps) /\
    index_first 0 (map fst ps) /\
    forall k, In k (map fst ps) <-> In k (map fst (kept rows)).
Proof.
  intros Hs H. destruct (normalizeNodeData_object _ _ Hs H) as (ps & -> & E).
  exists ps. split; [reflexivity|].
  destruct (forEach_host_order rows [] ps) as [Hn Hi];
    [split; constructor | exact E |].
  split; [exact Hn | split; [exact Hi|]].
  intros k. assert (Hl := forEach_last_value _ _ _ k E).
  cbn [lookup] in Hl. unfold last_value in Hl.
  assert (Hk : In k (map fst (kept rows)) <-> In k (map fst (rev (kept rows))))
    by (rewrite map_rev; apply in_rev).
  rewrite Hk.
  assert (Hp := lookup_In k ps). assert (Hr := lookup_In k (rev (kept rows))).
  destruct (lookup k (rev (kept rows))), (lookup k ps); try discriminate;
    split; intros Hin.
  - destruct (in_dec string_dec k (map fst (rev (kept rows)))); [assumption|].
    apply Hr in n. discriminate.
  - destruct (in_dec string_dec k (map fst ps)); [assumption|].
    apply Hp in n. discriminate.
  - exfalso. revert Hin. apply Hp. reflexivity.
  - exfalso. revert Hin. apply Hr. reflexivity.
Qed.

End ProjectorOrder.

(* ------------------------------------------------------------------ *)
(** ** Laws of the component *)

Section ComponentLaws.
Context {host : Host}.

Ltac reduce :=
  cbv beta iota;
  rewrite ?node_path_with_ui, ?node_text_with_ui;
  cbn [ui json editValue displayContent error isEditing with_ui
       selectedNode contents closed fst snd].

Ltac run_handler :=
  unfold handleSave, save_body, handleCancel, handleClose, reset, normalized,
    setError, setIsEditing, setDisplayContent, setEditValue, setContents,
    onClose;
  unfold try_catch, bind, parse, gets, modify, call, throw, lift, pure;
  reduce.


(** What a step does to the calls of [setContents]. *)
Lemma step_contents (w w' : world) (e : event) :
  step w e = Some w' ->
  contents w' = contents w \/
  (e = ClickSave /\ exists v, contents w' = (contents w ++ [JSON_stringify v])%list).
Proof.
  unfold step. destruct (enabled w e); [|discriminate].
  destruct e; cbn [handler].
  - run_handler. intros H. injection H as <-. auto.
  - run_handler. intros H. injection H as <-. auto.
  - destruct (handleSave_cases w) as [H | [[m H] | (p & d & H)]].
    + rewrite H. discriminate.
    + rewrite (handleSave_failure _ _ H). intros E. injection E as <-. auto.
    + rewrite (handleSave_success _ _ _ H). intros E. injection E as <-.
      right. split; [reflexivity|]. exists d. reflexivity.
  - run_handler. destruct (normalizeNodeData (node_text w)); try discriminate.
    reduce. intros H. injection H as <-. auto.
  - run_handler. destruct (isEditing (ui w)).
    + run_handler. destruct (normalizeNodeData (node_text w));
        try discriminate.
      reduce. intros H. injection H as <-. auto.
    + reduce. intros H. injection H as <-. auto.
  - run_handler.
    set (w1 := mkWorld nd (ui w) (json w) (contents w) (closed w)).
    destruct (normalizeNodeData (node_text w1)); try discriminate.
    reduce. intros H. injection H as <-. auto.
  - run_handler. intros H. injection H as <-. auto.
Qed.

(** X16.  Along every run of the component the calls of [setContents] only
    grow by appending, by at most one call for each click on Save, and
    every text handed over is the serialization of a document. *)
Theorem store_written_by_saves (evs : list event) :
  forall w0 w : world,
    exec w0 evs = Some w ->
    exists added,
      contents w = (contents w0 ++ added)%list /\
      List.length added <= saves evs /\
      Forall (fun s => exists v, s = JSON_stringify v) added.
Proof.
  induction evs as [|e evs IH]; intros w0 w; cbn [exec].
  - intros H. injection H as <-. exists []. rewrite app_nil_r.
    repeat split; [cbn; lia | constructor].
  - destruct (step w0 e) as [w1|] eqn:Es; [|discriminate]. intros Hx.
    destruct (IH _ _ Hx) as (a2 & E2 & L2 & F2).
    unfold saves in *. cbn [filter].
    destruct (step_contents _ _ _ Es) as [E1 | (-> & v & E1)].
    + exists a2. rewrite E2, E1. repeat split; [|exact F2].
      destruct (is_save e); cbn [List.length]; lia.
    + exists (JSON_stringify v :: a2). rewrite E2, E1, <- app_assoc.
      repeat split; [cbn [is_save List.length]; lia|].
      constructor; [eauto | exact F2].
Qed.

(** X17.  Closing the modal calls [onClose] once and never touches the
    store, the selection or the displayed text; while viewing it changes
    nothing else, while editing it discards the edit as Cancel does. *)
Theorem handleClose_discards (w w' : world) :
  handleClose w = Done tt w' ->
  closed w' = S (closed w) /\
  contents w' = contents w /\
  json w' = json w /\
  selectedNode w' = selectedNode w /\
  isEditing (ui w') = false /\
  displayContent (ui w') = displayContent (ui w) /\
  (isEditing (ui w) = false -> ui w' = ui w) /\
  (isEditing (ui w) = true ->
   error (ui w') = None /\
   normalizeNodeData (node_text w) = Normal (editValue (ui w'))).
Proof.
  run_handler. destruct (isEditing (ui w)) eqn:Ee.
  - run_handler. destruct (normalizeNodeData (node_text w)) eqn:En;
      try discriminate.
    reduce. intros H. injection H as <-. cbn. repeat split; auto. discriminate.
  - reduce. intros H. injection H as <-. cbn. repeat split; auto.
    + destruct (ui w); cbn in *; congruence.
    + discriminate.
Qed.

(** X19.  When the edited text and the text of the store parse and the
    path of the node resolves in the stored document, the save goes
    through, and the document handed to the store holds the parsed value
    at that path. *)
Theorem save_on_resolving_path (w : world) (parsed root : value)
  (path : list segment) :
  JSON_parse (editValue (ui w)) = inl parsed ->
  JSON_parse (json w) = inl root ->
  node_path w = Some path ->
  resolves root path = true ->
  exists doc',
    handleSave w = Done tt (saved w parsed doc') /\
    getAtPath doc' path = Some parsed.
Proof.
  intros H1 H2 H3 Hr. destruct path as [|seg rest].
  - exists parsed. split; [|reflexivity].
    apply handleSave_success. eapply root_replaced; eauto.
  - destruct (walk_roundtrip rest seg root parsed Hr) as (doc' & Hw & Hg).
    exists doc'. split; [|exact Hg].
    apply handleSave_success.
    eapply (subtree_replaced w parsed root seg rest (RetBool true)); eauto.
Qed.

(** X20.  A node shown as a single value is edited as the string
    conversion of that value: when this text is not JSON (such as the
    characters of a string value), Edit followed by Save on the untouched
    text fails with the message of the parser and writes nothing. *)
Theorem untouched_value_must_be_json (nd : NodeData.t) (row : NodeRow.t)
  (doc msg : string) :
  NodeData.text nd = [row] ->
  truthy_key row = None ->
  JSON_parse (to_string (NodeRow.value row)) = inr msg ->
  exists w0 w,
    mount (Some nd) doc = Some w0 /\
    exec w0 [ClickEdit; ClickSave] = Some w /\
    editValue (ui w) = to_string (NodeRow.value row) /\
    error (ui w) = Some msg /\
    isEditing (ui w) = true /\
    contents w = [].
Proof.
  intros Ht Hk Hp.
  assert (Hn : normalizeNodeData [row] = Normal (to_string (NodeRow.value row)))
    by (unfold normalizeNodeData; rewrite Hk; reflexivity).
  set (n := to_string (NodeRow.value row)) in *.
  exists (mkWorld (Some nd) (mkComponent n n None false) doc [] 0).
  set (w1 := mkWorld (Some nd) (mkComponent n n None true) doc [] 0).
  exists (refused w1 msg).
  split; [unfold mount; rewrite Ht, Hn; reflexivity|].
  split; [|repeat split].
  cbn [exec]. unfold step at 1. cbn [enabled ui isEditing negb handler].
  unfold setIsEditing, modify. cbn [with_ui ui editValue displayContent error
    selectedNode json contents closed].
  fold w1. unfold step. cbn [enabled handler]. 
  change (isEditing (ui w1)) with true. cbv iota.
  rewrite (handleSave_failure w1 msg); [reflexivity|].
  apply edit_text_invalid. exact Hp.
Qed.

End ComponentLaws.

(* ------------------------------------------------------------------ *)
(** ** The laws on the sample documents, with the reference host *)

Section ClosedLaws.
Import Samples MoreSamples.
#[local] Existing Instance Reference.host.

(** The examples of the specification for the text of a path. *)
Example path_text :
  jsonPathToString None = "$" /\
  jsonPathToString (Some customer_0)
  = "$[" ++ quote ++ "customer" ++ quote ++ "][0]".
Proof. split; reflexivity. Qed.

(** Keys are quoted as they are: a key that holds a quote can make two
    paths read the same. *)
Example path_text_collision :
  jsonPathToString
    (Some [Key ("a" ++ quote ++ "][" ++ quote ++ "b")])
  = jsonPathToString (Some [Key "a"; Key "b"]).
Proof. reflexivity. Qed.

Lemma jsonPathToString_inj_witness :
  [Key "customer"; Index 0%N] = customer_0.
Proof.
  apply (jsonPathToString_inj [Key "customer"; Index 0%N] customer_0);
    reflexivity.
Defined.

Lemma setValueAtPath_existing_witness :
  returned_document (setValueAtPath a_triple (Some [Key "a"; Index 1]) (VNum 9))
  = Some (VObj [("a", VArr [number 1; number 9; number 3] [])]).
Proof.
  apply (setValueAtPath_existing a_triple (VNum 2) (VNum 9)
           [Key "a"; Index 1%N]).
  reflexivity.
Defined.

Lemma setValueAtPath_same_witness :
  setValueAtPath a_b_one (Some [Key "a"; Key "b"]) (VNum 1)
  = Done (RetBool true) a_b_one.
Proof.
  apply (setValueAtPath_same a_b_one (VNum 1) (Key "a") [Key "b"]).
  reflexivity.
Defined.

Lemma setValueAtPath_twice_witness :
  exists doc1,
    returned_document
      (setValueAtPath (VObj []) (Some [Key "a"; Key "b"]) (VNum 1))
    = Some doc1 /\
    returned_document (setValueAtPath doc1 (Some [Key "a"; Key "b"]) (VNum 2))
    = returned_document
        (setValueAtPath (VObj []) (Some [Key "a"; Key "b"]) (VNum 2)).
Proof.
  apply (setValueAtPath_twice (VObj []) (VNum 1) (VNum 2) [Key "a"; Key "b"]).
  reflexivity.
Defined.

Lemma setValueAtPath_frame_witness :
  getAtPath (VObj [("a", VArr [number 1; number 9; number 3] [])])
    [Key "a"; Index 2]
  = getAtPath a_triple [Key "a"; Index 2].
Proof.
  apply (setValueAtPath_frame a_triple
           (VObj [("a", VArr [number 1; number 9; number 3] [])]) (VNum 9)
           [Key "a"] [] [] (Index 1) (Index 2)).
  - reflexivity.
  - discriminate.
Defined.


Lemma setValueAtPath_no_element_witness :
  setValueAtPath a_triple (Some [Key "a"; Index 7; Key "b"]) (VNum 2)
  = Done (RetBool false) a_triple.
Proof.
  apply (setValueAtPath_no_element a_triple (VNum 2) [Key "a"]
           [number 1; number 2; number 3] [] 7 (Key "b") []); reflexivity.
Defined.

Lemma setValueAtPath_creates_chain_witness :
  exists ps',
    setValueAtPath a_one (Some [Key "x"; Key "y"; Key "z"]) (VNum 2)
    = Done (RetBool true) (VObj ps') /\
    lookup "x" ps' = Some (VObj [("y", VObj [("z", VNum 2)])]) /\
    forall k', k' <> "x" -> lookup k' ps' = lookup k' [("a", VNum 1)].
Proof.
  apply (setValueAtPath_creates_chain "x" ["y"; "z"] [("a", VNum 1)] (VNum 2)).
  - reflexivity.
  - repeat constructor.
Defined.

Lemma setValueAtPath_keeps_order_witness :
  exists ps',
    VObj [("a", VNum 1); ("x", VObj [])] = VObj ps' /\
    (lookup "x" [("a", VNum 1)] <> None -> map fst ps' = ["a"]) /\
    (lookup "x" [("a", VNum 1)] = None -> array_index_of "x" = None ->
     map fst ps' = ["a"; "x"]).
Proof.
  apply (setValueAtPath_keeps_order [("a", VNum 1)] "x" [Index 0%N] (VNum 2)
           (VObj [("a", VNum 1); ("x", VObj [])])).
  reflexivity.
Defined.

Lemma normalizeNodeData_last_wins_witness :
  exists ps,
    JSON_stringify (VObj [("a", VNum 2)]) = JSON_stringify (VObj ps) /\
    forall k, lookup k ps = last_value k (kept a_twice).
Proof.
  apply (normalizeNodeData_last_wins a_twice
           (JSON_stringify (VObj [("a", VNum 2)]))); reflexivity.
Defined.

Lemma normalizeNodeData_nothing_kept_witness :
  normalizeNodeData containers_only = Normal "{}".
Proof.
  apply (normalizeNodeData_nothing_kept containers_only); reflexivity.
Defined.

Lemma normalizeNodeData_index_keys_first_witness :
  exists ps,
    JSON_stringify (VObj [("1", VNum 2); ("b", VNum 1)])
    = JSON_stringify (VObj ps) /\
    NoDup (map fst ps) /\
    index_first 0 (map fst ps) /\
    forall k, In k (map fst ps) <-> In k (map fst (kept b_then_1)).
Proof.
  apply (normalizeNodeData_index_keys_first b_then_1
           (JSON_stringify (VObj [("1", VNum 2); ("b", VNum 1)])));
    reflexivity.
Defined.

Lemma store_written_by_saves_witness :
  exists added,
    contents after_save_then_cancel = (contents mounted_root ++ added)%list /\
    List.length added <= saves save_then_cancel /\
    Forall (fun s => exists v, s = JSON_stringify v) added.
Proof.
  apply (store_written_by_saves save_then_cancel mounted_root
           after_save_then_cancel).
  vm_compute. reflexivity.
Defined.

Lemma handleClose_discards_witness :
  closed closed_from_draft = S (closed typing_draft) /\
  contents closed_from_draft = contents typing_draft /\
  json closed_from_draft = json typing_draft /\
  selectedNode closed_from_draft = selectedNode typing_draft /\
  isEditing (ui closed_from_draft) = false /\
  displayContent (ui closed_from_draft) = displayContent (ui typing_draft) /\
  (isEditing (ui typing_draft) = false ->
   ui closed_from_draft = ui typing_draft) /\
  (isEditing (ui typing_draft) = true ->
   error (ui closed_from_draft) = None /\
   normalizeNodeData (node_text typing_draft)
   = Normal (editValue (ui closed_from_draft))).
Proof.
  apply (handleClose_discards typing_draft closed_from_draft).
  reflexivity.
Defined.

Lemma cancel_before_any_save_witness :
  editValue (ui mounted_root) = displayContent (ui mounted_root) /\
  displayContent (ui mounted_root) = displayContent (ui typing_draft) /\
  error (ui mounted_root) = None /\
  isEditing (ui mounted_root) = false.
Proof.
  apply (cancel_before_any_save (Some root_node) (a_text "1")
           mounted_root typing_draft mounted_root [ClickEdit; Change "draft"]).
  - reflexivity.
  - simpl. intuition discriminate.
  - reflexivity.
  - reflexivity.
Defined.

Lemma save_on_resolving_path_witness :
  exists doc',
    handleSave (editing member_node store_text "2")
    = Done tt (saved (editing member_node store_text "2") (VNum 2) doc') /\
    getAtPath doc' [Key "a"; Key "b"] = Some (VNum 2).
Proof.
  apply (save_on_resolving_path (editing member_node store_text "2")
           (VNum 2) a_b_one [Key "a"; Key "b"]).
  - vm_compute. reflexivity.
  - vm_compute. reflexivity.
  - reflexivity.
  - reflexivity.
Defined.

Lemma untouched_value_must_be_json_witness :
  exists w0 w,
    mount (Some hello_node) store_text = Some w0 /\
    exec w0 [ClickEdit; ClickSave] = Some w /\
    editValue (ui w) = "hello" /\
    error (ui w) = Some "Unexpected token in JSON" /\
    isEditing (ui w) = true /\
    contents w = [].
Proof.
  apply (untouched_value_must_be_json hello_node hello_row store_text
           "Unexpected token in JSON").
  - reflexivity.
  - reflexivity.
  - vm_compute. reflexivity.
Defined.

End ClosedLaws.
